(** * edl2denlive: the line parser and the project builder

    A shallow embedding of [src/edl2denlive.py] and the properties of its
    line parser ([parse_edl_line]) and of its project builder
    ([create_kdenlive_project]).

    Data model.
    - A Python [str] is a list of Unicode code points ([char := N]).
    - A Python [float] is an IEEE-754 binary64 value, [spec_float] with
      precision 53 and maximal exponent 1024; [+] is [SFadd].
    - A Python [dict] keeps insertion order: it is an association list.
    - [print] appends a line to the standard output, a list of strings.
    - The file system and the XML serializer of the Python library are
      parameters of the builder: reading a file gives its lines and
      possibly an exception, writing a file succeeds or raises an exception
      that leaves the file alone, empty or partly written, and the
      serializer is a function of the tree that may raise.
    - A run ends by returning or with an exception that the code does not
      catch. *)

From Stdlib Require Import List Bool Arith NArith ZArith Lia FinFun Permutation.
From Stdlib Require Import Strings.String Strings.Ascii.
From Stdlib Require Import Numbers.DecimalString Numbers.DecimalNat.
From Stdlib Require Numbers.DecimalN Numbers.DecimalFacts.
From Stdlib Require Import Floats.SpecFloat.
Import ListNotations.

Local Open Scope N_scope.

(** ** Strings *)

Definition char := N.
Definition str := list char.

(** The code points of a literal of the source. *)
Definition s2l (s : string) : str := map N_of_ascii (list_ascii_of_string s).

Definition str_eq_dec : forall a b : str, {a = b} + {a <> b} := list_eq_dec N.eq_dec.

Definition str_eqb (a b : str) : bool :=
  if str_eq_dec a b then true else false.

(** [Py_UNICODE_ISSPACE]: the characters [str.strip] and [str.split] treat
    as whitespace. *)
Definition is_space (c : char) : bool :=
  ((9 <=? c) && (c <=? 13)) || ((28 <=? c) && (c <=? 32))
  || (c =? 133) || (c =? 160) || (c =? 5760)
  || ((8192 <=? c) && (c <=? 8202))
  || (c =? 8232) || (c =? 8233) || (c =? 8239) || (c =? 8287) || (c =? 12288).

Fixpoint lstrip_by (sp : char -> bool) (s : str) : str :=
  match s with
  | [] => []
  | c :: s' => if sp c then lstrip_by sp s' else s
  end.

Definition rstrip_by (sp : char -> bool) (s : str) : str :=
  rev (lstrip_by sp (rev s)).

Definition strip_by (sp : char -> bool) (s : str) : str :=
  rstrip_by sp (lstrip_by sp s).

(** [s.strip()] *)
Definition strip : str -> str := strip_by is_space.

(** [s.startswith(p)] *)
Fixpoint startswith (p s : str) : bool :=
  match p, s with
  | [], _ => true
  | a :: p', b :: s' => (a =? b) && startswith p' s'
  | _ :: _, [] => false
  end.

(** The text before and after the first occurrence of [sep]. *)
Fixpoint find_sep (sep : char) (s : str) : option (str * str) :=
  match s with
  | [] => None
  | c :: s' =>
      if c =? sep then Some ([], s')
      else match find_sep sep s' with
           | Some (a, b) => Some (c :: a, b)
           | None => None
           end
  end.

(** [s.split(sep, maxsplit)] for a separator of one character. *)
Fixpoint split_char (sep : char) (maxsplit : nat) (s : str) : list str :=
  match maxsplit with
  | O => [s]
  | S n =>
      match find_sep sep s with
      | None => [s]
      | Some (a, b) => a :: split_char sep n b
      end
  end.

(** [s.rsplit(sep, maxsplit)] for a separator of one character: the same
    scan, run from the right end. *)
Definition rsplit_char (sep : char) (maxsplit : nat) (s : str) : list str :=
  rev (map (@rev char) (split_char sep maxsplit (rev s))).

Definition flush (word : str) : list str :=
  match word with
  | [] => []
  | _ => [rev word]
  end.

(** [s.split()]: the maximal runs of non-whitespace characters. [word] holds
    the characters of the run being read, last one first. *)
Fixpoint split_from (word : str) (s : str) : list str :=
  match s with
  | [] => flush word
  | c :: s' =>
      if is_space c then flush word ++ split_from [] s'
      else split_from (c :: word) s'
  end.

Definition split_ws (s : str) : list str := split_from [] s.

(** [sep.join(parts)] *)
Fixpoint join (sep : str) (parts : list str) : str :=
  match parts with
  | [] => []
  | [p] => p
  | p :: ps => p ++ sep ++ join sep ps
  end.

(** [str(n)] for a non-negative integer. *)
Definition str_nat (n : nat) : str := s2l (NilZero.string_of_uint (Nat.to_uint n)).
Definition str_Z (z : Z) : str := s2l (NilZero.string_of_uint (N.to_uint (Z.to_N z))).

Definition comma : char := 44.
Definition hash : char := 35.
Definition space : char := 32.
Definition minus : char := 45.
Definition dot : char := 46.

(** ** Floating-point numbers *)

Definition float := spec_float.
Definition prec : Z := 53.
Definition emax : Z := 1024.

(** [x + y] on floats. *)
Definition float_add : float -> float -> float := SFadd prec emax.

(** [x < y] and [x <= y] on floats (false when either is a NaN). *)
Definition float_ltb : float -> float -> bool := SFltb.
Definition float_leb : float -> float -> bool := SFleb.

Definition zero : float := S754_zero false.

Definition is_finite (x : float) : bool :=
  match x with
  | S754_zero _ | S754_finite _ _ _ => true
  | _ => false
  end.

(** The value [(-1)^neg * digits * 10^exp10] rounded to the nearest binary64
    number, ties to even. The quotient is taken with at least 64 bits, and
    the remainder of the division decides the rounding. *)
Definition float_of_decimal (neg : bool) (digits : N) (exp10 : Z) : float :=
  match digits with
  | N0 => S754_zero neg
  | Npos m =>
      let n := (Zpos m * 10 ^ Z.max exp10 0)%Z in
      let d := (10 ^ Z.max (- exp10) 0)%Z in
      let k := (Z.log2_up d + 64)%Z in
      let (q, r) := Z.div_eucl (Z.shiftl n k) d in
      binary_round_aux prec emax neg q (- k) (new_location d r)
  end.

(** The first code point of each run of ten Unicode decimal digits
    ([Py_UNICODE_TODECIMAL], Unicode 14). *)
Definition decimal_zeros : list N :=
  [48; 1632; 1776; 1984; 2406; 2534; 2662; 2790; 2918; 3046; 3174; 3302;
   3430; 3558; 3664; 3792; 3872; 4160; 4240; 6112; 6160; 6470; 6608; 6784;
   6800; 6992; 7088; 7232; 7248; 42528; 43216; 43264; 43472; 43504; 43600;
   44016; 65296; 66720; 68912; 69734; 69872; 69942; 70096; 70384; 70736;
   70864; 71248; 71360; 71472; 71904; 72016; 72784; 73040; 73120; 92768;
   92864; 93008; 120782; 120792; 120802; 120812; 120822; 123200; 123632;
   125264; 130032].

Definition to_decimal (c : char) : option N :=
  match find (fun z => (z <=? c) && (c <=? z + 9)) decimal_zeros with
  | Some z => Some (c - z)
  | None => None
  end.

(** [_PyUnicode_TransformDecimalAndSpaceToASCII], character by character: a
    character that is neither ASCII, a space nor a decimal digit becomes
    [?], which no float literal contains. *)
Definition to_ascii (c : char) : char :=
  if c <? 127 then c
  else if is_space c then 32
  else match to_decimal c with
       | Some d => 48 + d
       | None => 63
       end.

Definition is_digit (c : char) : bool := (48 <=? c) && (c <=? 57).

(** [_Py_string_to_number_with_underscores]: an underscore is dropped when it
    stands between two digits and is an error anywhere else. [prev] is the
    character read before. *)
Fixpoint drop_underscores (prev : char) (s : str) : option str :=
  match s with
  | [] => if prev =? 95 then None else Some []
  | c :: s' =>
      if c =? 95 then
        if is_digit prev then drop_underscores c s' else None
      else if (prev =? 95) && negb (is_digit c) then None
      else match drop_underscores c s' with
           | Some r => Some (c :: r)
           | None => None
           end
  end.

(** [Py_ISSPACE] *)
Definition is_c_space (c : char) : bool := ((9 <=? c) && (c <=? 13)) || (c =? 32).

(** The longest prefix of digits, and the rest. *)
Fixpoint span_digits (s : str) : str * str :=
  match s with
  | c :: s' =>
      if is_digit c then let (d, r) := span_digits s' in (c :: d, r)
      else ([], s)
  | [] => ([], [])
  end.

Definition digits_value (ds : str) : N :=
  fold_left (fun acc c => 10 * acc + (c - 48)) ds 0.

(** An optional sign: whether it is a minus, and the rest. *)
Definition read_sign (s : str) : bool * str :=
  match s with
  | c :: s' =>
      if c =? 45 then (true, s')
      else if c =? 43 then (false, s')
      else (false, s)
  | [] => (false, [])
  end.

Definition lower (c : char) : char :=
  if (65 <=? c) && (c <=? 90) then c + 32 else c.

(** [_Py_parse_inf_or_nan], when it has to read the whole text. *)
Definition parse_inf_or_nan (s : str) : option float :=
  let (neg, r) := read_sign s in
  let w := map lower r in
  if str_eqb w (s2l "inf") || str_eqb w (s2l "infinity") then Some (S754_infinity neg)
  else if str_eqb w (s2l "nan") then Some S754_nan
  else None.

(** The exponent part of a decimal literal: [e] or [E], an optional sign and
    at least one digit, up to the end of the text. *)
Definition parse_exponent (s : str) : option Z :=
  match s with
  | [] => Some 0%Z
  | c :: s' =>
      if (c =? 101) || (c =? 69) then
        let (neg, r) := read_sign s' in
        match span_digits r with
        | ((_ :: _) as ds, []) =>
            let e := Z.of_N (digits_value ds) in
            Some (if neg then (- e)%Z else e)
        | _ => None
        end
      else None
  end.

(** [_Py_dg_strtod], when it has to read the whole text: an optional sign,
    digits with an optional point (at least one digit in all), an optional
    exponent. *)
Definition parse_decimal (s : str) : option float :=
  let (neg, r0) := read_sign s in
  let (ip, r1) := span_digits r0 in
  let (fp, r2) :=
    match r1 with
    | c :: r => if c =? 46 then span_digits r else ([], r1)
    | [] => ([], r1)
    end in
  match ip ++ fp with
  | [] => None
  | ds =>
      match parse_exponent r2 with
      | Some e => Some (float_of_decimal neg (digits_value ds)
                          (e - Z.of_nat (List.length fp)))
      | None => None
      end
  end.

(** [float(s)] for a string [s]; [None] is [ValueError]. *)
Definition float_of_str (s : str) : option float :=
  match drop_underscores 0 (map to_ascii s) with
  | None => None
  | Some t =>
      let t := strip_by is_c_space t in
      match parse_decimal t with
      | Some x => Some x
      | None => parse_inf_or_nan t
      end
  end.

Definition round_half_even (n d : Z) : Z :=
  let (q, r) := Z.div_eucl n d in
  match (2 * r ?= d)%Z with
  | Lt => q
  | Gt => (q + 1)%Z
  | Eq => if Z.even q then q else (q + 1)%Z
  end.

Definition sign_str (neg : bool) : str := if neg then s2l "-" else [].

Definition digit_char (d : Z) : char := 48 + Z.to_N d.

(** The thousandths [n], printed as a whole part, a point and three
    decimals. *)
Definition fixed3 (n : Z) : str :=
  str_Z (n / 1000) ++ [46]
    ++ [digit_char (n / 100 mod 10); digit_char (n / 10 mod 10); digit_char (n mod 10)].

(** The number of thousandths nearest to [m * 2^e], ties to even. *)
Definition thousandths (m : positive) (e : Z) : Z :=
  if (0 <=? e)%Z then (Zpos m * 2 ^ e * 1000)%Z
  else round_half_even (Zpos m * 1000) (2 ^ (- e)).

(** [f"{x:.3f}"] *)
Definition format_3f (x : float) : str :=
  match x with
  | S754_nan => s2l "nan"
  | S754_infinity neg => sign_str neg ++ s2l "inf"
  | S754_zero neg => sign_str neg ++ s2l "0.000"
  | S754_finite neg m e => sign_str neg ++ fixed3 (thousandths m e)
  end.


(** ** Exceptions *)

(** The exceptions of a run. [FileNotFoundError] is an [OSError];
    [OSError] here stands for the other ones ([IsADirectoryError],
    [PermissionError], ...), and [UnicodeError] for [UnicodeDecodeError]
    and [UnicodeEncodeError]. [IOError] is another name of [OSError]. *)
Inductive exn :=
  | ValueError
  | KeyError
  | ExpatError
  | FileNotFoundError
  | OSError
  | UnicodeError.

(** [except FileNotFoundError] *)
Definition is_FileNotFoundError (e : exn) : bool :=
  match e with
  | FileNotFoundError => true
  | _ => false
  end.

(** [except IOError] *)
Definition is_IOError (e : exn) : bool :=
  match e with
  | FileNotFoundError | OSError => true
  | _ => false
  end.

Inductive result (A : Type) :=
  | Ok (a : A)
  | Raise (e : exn).
Arguments Ok {A} a.
Arguments Raise {A} e.

Definition bind {A B : Type} (r : result A) (k : A -> result B) : result B :=
  match r with
  | Ok a => k a
  | Raise e => Raise e
  end.

Notation "x <- r ;; k" := (bind r (fun x => k))
  (at level 61, r at next level, right associativity).

Fixpoint mapM {A B : Type} (f : A -> result B) (l : list A) : result (list B) :=
  match l with
  | [] => Ok []
  | a :: l' => b <- f a ;; bs <- mapM f l' ;; Ok (b :: bs)
  end.

(** [float(s)], raising [ValueError]. *)
Definition to_float (s : str) : result float :=
  match float_of_str s with
  | Some x => Ok x
  | None => Raise ValueError
  end.

(** ** The line parser *)

(** The dictionary [parse_edl_line] returns. *)
Record cut := { path : str; start : float; length : float }.

Definition warning (line : str) : str :=
  s2l "[Warn] Skipping invalid line format: " ++ line.

(** The body of the [try] block: [Ok None] is the early [return None]. *)
Definition parse_fields (line : str) : result (option cut) :=
  let parts := rsplit_char comma 2 line in
  if negb (List.length parts =? 3)%nat then
    let parts := split_ws line in
    let n := List.length parts in
    if (n <? 3)%nat then Ok None
    else
      let path := join [space] (firstn (n - 2) parts) in
      start <- to_float (nth (n - 2) parts []) ;;
      length <- to_float (nth (n - 1) parts []) ;;
      Ok (Some {| path := path; start := start; length := length |})
  else
    let path := strip (nth 0 parts []) in
    start <- to_float (nth 1 parts []) ;;
    length <- to_float (nth 2 parts []) ;;
    Ok (Some {| path := path; start := start; length := length |}).

(** Blank lines and comments. *)
Definition skipped (line : str) : bool :=
  match line with
  | [] => true
  | _ => startswith [hash] line
  end.

(** [parse_edl_line(line)]: the value returned and the lines printed. The
    handler catches [ValueError], the one exception the block raises. *)
Definition parse_edl_line (line : str) : option cut * list str :=
  let line := strip line in
  if skipped line then (None, [])
  else
    match parse_fields line with
    | Ok r => (r, [])
    | Raise _ => (None, [warning line])
    end.

(** ** The element tree *)

#[warnings="-register-all"]
Inductive element :=
  Element (tag : str) (attrib : list (str * str)) (text : option str)
          (children : list element).

Definition tag (el : element) : str := let 'Element t _ _ _ := el in t.
Definition attrib (el : element) : list (str * str) := let 'Element _ a _ _ := el in a.
Definition text (el : element) : option str := let 'Element _ _ x _ := el in x.
Definition children (el : element) : list element := let 'Element _ _ _ c := el in c.

(** A dictionary with string keys, in insertion order. *)
Definition dict := list (str * str).

Definition dict_get (k : str) (d : dict) : option str :=
  match find (fun kv => str_eqb (fst kv) k) d with
  | Some kv => Some (snd kv)
  | None => None
  end.

Definition dict_mem (k : str) (d : dict) : bool :=
  existsb (fun kv => str_eqb (fst kv) k) d.

(** [d[k] = v] *)
Fixpoint dict_set (k v : str) (d : dict) : dict :=
  match d with
  | [] => [(k, v)]
  | (k', v') :: d' =>
      if str_eqb k' k then (k, v) :: d' else (k', v') :: dict_set k v d'
  end.

(** [ET.Element(tag)], [el.set(k, v)], [el.text = t], and appending a
    child as [ET.SubElement] does. The source appends a new child and then
    fills it in; here a child is filled in and then appended, which gives
    the same tree. *)
Definition new_element (t : str) : element := Element t [] None [].

Definition set_attr (k v : str) (el : element) : element :=
  let 'Element t a x c := el in Element t (dict_set k v a) x c.

Definition set_text (s : str) (el : element) : element :=
  let 'Element t a _ c := el in Element t a (Some s) c.

Definition append (child : element) (el : element) : element :=
  let 'Element t a x c := el in Element t a x (c ++ [child]).

(** ** The project builder *)

(** The variables of the reading loop. *)
Record scan_state := {
  cuts : list cut;
  unique_paths : dict;
  producer_counter : nat
}.

Definition scan_init : scan_state :=
  {| cuts := []; unique_paths := []; producer_counter := 0 |}.

Definition producer_id (n : nat) : str := s2l "producer" ++ str_nat n.

(** The body of [if data:]. *)
Definition add_cut (st : scan_state) (data : cut) : scan_state :=
  let cuts' := cuts st ++ [data] in
  if negb (dict_mem (path data) (unique_paths st)) then
    {| cuts := cuts';
       unique_paths := unique_paths st ++ [(path data, producer_id (producer_counter st))];
       producer_counter := S (producer_counter st) |}
  else
    {| cuts := cuts';
       unique_paths := unique_paths st;
       producer_counter := producer_counter st |}.

(** One turn of the loop over the lines of the file; the second component
    is the standard output. *)
Definition scan_line (acc : scan_state * list str) (line : str) : scan_state * list str :=
  let (st, out) := acc in
  let (data, printed) := parse_edl_line line in
  match data with
  | Some data => (add_cut st data, out ++ printed)
  | None => (st, out ++ printed)
  end.

Definition scan (lines : list str) (out : list str) : scan_state * list str :=
  fold_left scan_line lines (scan_init, out).

(** Step 1: the root element. *)
Definition mlt_root : element :=
  set_attr (s2l "producer") (s2l "maintractor")
    (set_attr (s2l "title") (s2l "EDL Import")
       (set_attr (s2l "version") (s2l "7.0") (new_element (s2l "mlt")))).

(** Step 3: one producer for an item of [unique_paths]. *)
Definition producer_element (item : str * str) : element :=
  let (path, pid) := item in
  append
    (set_text path (set_attr (s2l "name") (s2l "resource") (new_element (s2l "property"))))
    (set_attr (s2l "id") pid (new_element (s2l "producer"))).

(** Step 4: one entry for a cut; [unique_paths[cut['path']]] raises
    [KeyError] on a path that is not a key. *)
Definition entry_element (unique_paths : dict) (c : cut) : result element :=
  match dict_get (path c) unique_paths with
  | None => Raise KeyError
  | Some pid =>
      let start_sec := start c in
      let length_sec := length c in
      let end_sec := float_add start_sec length_sec in
      Ok (set_attr (s2l "out") (format_3f end_sec)
            (set_attr (s2l "in") (format_3f start_sec)
               (set_attr (s2l "producer") pid (new_element (s2l "entry")))))
  end.

(** Step 5: the tractor and its track. *)
Definition tractor_element : element :=
  append (set_attr (s2l "producer") (s2l "playlist0") (new_element (s2l "track")))
    (set_attr (s2l "id") (s2l "maintractor") (new_element (s2l "tractor"))).

(** Steps 3 to 5: the tree handed to the serializer. *)
Definition build_document (st : scan_state) : result element :=
  let root := fold_left (fun r item => append (producer_element item) r)
                (unique_paths st) mlt_root in
  entries <- mapM (entry_element (unique_paths st)) (cuts st) ;;
  let playlist := fold_left (fun p e => append e p) entries
                    (set_attr (s2l "id") (s2l "playlist0") (new_element (s2l "playlist"))) in
  Ok (append tractor_element (append playlist root)).

(** What [open(output_path, "w")] and [f.write(xml_str)] do: the file holds
    the text, or an exception [e] is raised, [message] being [str(e)]. An
    exception of [open] leaves the file alone ([remains] is [None]); once the
    file is open it has been created or truncated, and an exception of
    [f.write] or of closing leaves it with [remains], the part of the text
    that reached it. *)
Inductive write_result :=
  | Written
  | Failed (e : exn) (message : str) (remains : option str).

(** What the builder can see of the file system. [read_file] gives the
    lines that the loop over the open file gets and the exception that
    ends the loop before the end of the file, if any (with no lines when
    [open] raises it). [write_file] is given the path and the text. *)
Record filesystem := {
  read_file : str -> list str * option exn;
  write_file : str -> str -> write_result
}.

Inductive status := Returned | Uncaught (e : exn).

(** A run of the builder: the lines printed, the file that the run opened
    for writing (its path, and the content it is left with) and how the
    call ended. *)
Record run := {
  stdout : list str;
  written : option (str * str);
  ending : status
}.

Section Builder.

(** [minidom.parseString(ET.tostring(root)).toprettyxml(indent="  ")], a
    function of the tree; [None] when the library raises (the parser of
    [minidom] rejects some characters). *)
Variable pretty_xml : element -> option str.

Definition create_kdenlive_project (fs : filesystem) (edl_path output_path : str) : run :=
  let out := [s2l "Reading EDL: " ++ edl_path] in
  let (lines, raised) := read_file fs edl_path in
  let (st, out) := scan lines out in
  match raised with
  | Some e =>
      if is_FileNotFoundError e then
        {| stdout := out ++ [s2l "Error: EDL file not found."];
           written := None; ending := Returned |}
      else {| stdout := out; written := None; ending := Uncaught e |}
  | None =>
      match cuts st with
      | [] =>
          {| stdout := out ++ [s2l "Error: No valid cuts found in EDL."];
             written := None; ending := Returned |}
      | _ :: _ =>
          let out := out ++ [s2l "Found " ++ str_nat (List.length (unique_paths st))
                               ++ s2l " unique source files."] in
          let out := out ++ [s2l "Processing " ++ str_nat (List.length (cuts st))
                               ++ s2l " cuts..."] in
          match build_document st with
          | Raise e => {| stdout := out; written := None; ending := Uncaught e |}
          | Ok root =>
              match pretty_xml root with
              | None => {| stdout := out; written := None; ending := Uncaught ExpatError |}
              | Some xml_str =>
                  match write_file fs output_path xml_str with
                  | Written =>
                      {| stdout := out ++ [s2l "Success! Project saved to: " ++ output_path];
                         written := Some (output_path, xml_str); ending := Returned |}
                  | Failed e message remains =>
                      let file := option_map (pair output_path) remains in
                      if is_IOError e then
                        {| stdout := out ++ [s2l "Error writing output file: " ++ message];
                           written := file; ending := Returned |}
                      else {| stdout := out; written := file; ending := Uncaught e |}
                  end
              end
          end
      end
  end.

End Builder.

(** ** Reading the results *)

(** The cuts of a file: the records its lines parse to, in order. *)
Definition accepted (lines : list str) : list cut :=
  flat_map (fun line => match fst (parse_edl_line line) with
                        | Some c => [c]
                        | None => []
                        end) lines.

(** The loop variables after a sequence of cuts. *)
Definition collect (cs : list cut) : scan_state := fold_left add_cut cs scan_init.

(** The text of a line that is read as the start of the cut: [parts[1]] of
    the three comma-separated parts, [parts[-2]] of the tokens otherwise. *)
Definition start_field (line : str) : str :=
  let parts := rsplit_char comma 2 line in
  if negb (List.length parts =? 3)%nat then
    let parts := split_ws line in
    nth (List.length parts - 2) parts []
  else nth 1 parts [].

(** The text that the builder hands to the file system for a sequence of
    cuts: none for no cut, or when the tree cannot be built or printed. *)
Definition project_xml (pretty_xml : element -> option str) (cs : list cut) : option str :=
  match cs with
  | [] => None
  | _ :: _ =>
      match build_document (collect cs) with
      | Ok root => pretty_xml root
      | Raise _ => None
      end
  end.

(** The position of the first occurrence of [p]. *)
Fixpoint first_index (p : str) (l : list str) : nat :=
  match l with
  | [] => 0
  | q :: l' => if str_eqb q p then 0 else S (first_index p l')
  end.

(** The state of the loop after the cuts [cs]: the counter counts the keys,
    the identifiers are numbered in order, and the keys are the distinct
    paths in the order of their first appearance. *)
Record registry_inv (cs : list cut) (st : scan_state) : Prop := {
  inv_cuts : cuts st = cs;
  inv_counter : producer_counter st = List.length (unique_paths st);
  inv_ids : map snd (unique_paths st)
            = map producer_id (seq 0 (List.length (unique_paths st)));
  inv_nodup : NoDup (map fst (unique_paths st));
  inv_keys : forall p, In p (map fst (unique_paths st)) <-> In p (map path cs);
  inv_order : forall i j p q, (i < j)%nat ->
      nth_error (map fst (unique_paths st)) i = Some p ->
      nth_error (map fst (unique_paths st)) j = Some q ->
      (first_index p (map path cs) < first_index q (map path cs))%nat
}.

Definition has_tag (t : str) (el : element) : bool := str_eqb (tag el) t.

Definition get_attr (k : str) (el : element) : option str := dict_get k (attrib el).

(** The text of the [resource] property of a producer. *)
Definition resource (el : element) : option str :=
  match find (fun c => has_tag (s2l "property") c
                       && match get_attr (s2l "name") c with
                          | Some n => str_eqb n (s2l "resource")
                          | None => false
                          end) (children el) with
  | Some c => text c
  | None => None
  end.

(** The producer descriptors of a document, in document order: identifier
    and resource. *)
Definition producer_descriptors (root : element) : list (option str * option str) :=
  map (fun el => (get_attr (s2l "id") el, resource el))
    (filter (has_tag (s2l "producer")) (children root)).

(** A playlist entry as read from the document. *)
Record entry := { entry_producer : option str; entry_in : option str; entry_out : option str }.

(** What an entry element shows of its cut. *)
Definition entry_view (el : element) : entry :=
  {| entry_producer := get_attr (s2l "producer") el;
     entry_in := get_attr (s2l "in") el;
     entry_out := get_attr (s2l "out") el |}.

(** The playlist entries of a document, in document order. *)
Definition playlist_entries (root : element) : list entry :=
  map entry_view (flat_map children (filter (has_tag (s2l "playlist")) (children root))).

(** A decimal rendering with exactly three decimals: an optional minus
    sign, at least one digit, a point, three digits. *)
Definition three_decimals (s : str) : Prop :=
  exists (sg whole : str) (d1 d2 d3 : char),
    s = sg ++ whole ++ [dot; d1; d2; d3]
    /\ (sg = [] \/ sg = [minus])
    /\ whole <> [] /\ forallb is_digit whole = true
    /\ is_digit d1 = true /\ is_digit d2 = true /\ is_digit d3 = true.

(** A text that neither begins nor ends with a whitespace character. *)
Definition trimmed (p : str) : Prop :=
  (forall c r, p = c :: r -> is_space c = false)
  /\ (forall c r, p = r ++ [c] -> is_space c = false).

(** The whole number written by a text of decimal digits. *)
Definition decimal_number (ds : str) : Z :=
  fold_left (fun acc c => (10 * acc + (Z.of_N c - 48))%Z) ds 0%Z.

(** [n] is the whole number nearest to [1000 * m * 2^e], and the even one
    of the two when that lies halfway between two whole numbers. *)
Definition nearest_thousandth (m : positive) (e n : Z) : Prop :=
  if (0 <=? e)%Z then n = (Zpos m * 2 ^ e * 1000)%Z
  else (Z.abs (2 * (Zpos m * 1000 - n * 2 ^ (- e))) <= 2 ^ (- e))%Z
       /\ ((Z.abs (2 * (Zpos m * 1000 - n * 2 ^ (- e))) = 2 ^ (- e))%Z
           -> Z.even n = true).

(** The text [s] shows the value [x] in the fixed format with three
    decimals. A number other than zero is shown by a minus sign exactly
    when it is below zero, the digits of its whole part with no zero in
    front (a single zero for a whole part of zero), a point and three
    digits; the digits, read without the point, are the thousandth
    nearest to the number. A zero keeps its sign. An infinity and a value
    that is not a number have the names below and no decimals. *)
Definition rendered_3f (x : float) (s : str) : Prop :=
  match x with
  | S754_nan => s = s2l "nan"
  | S754_infinity neg => s = if neg then s2l "-inf" else s2l "inf"
  | S754_zero neg => s = if neg then s2l "-0.000" else s2l "0.000"
  | S754_finite neg m e =>
      exists (whole : str) (d1 d2 d3 : char),
        s = (if neg then [minus] else []) ++ whole ++ [dot; d1; d2; d3]
        /\ whole <> []
        /\ forallb is_digit (whole ++ [d1; d2; d3]) = true
        /\ (forall r, whole = 48 :: r -> r = [])
        /\ nearest_thousandth m e (decimal_number (whole ++ [d1; d2; d3]))
  end.

(** A token: a text that is not empty and holds no whitespace. *)
Definition is_token (t : str) : Prop :=
  t <> [] /\ forall c, In c t -> is_space c = false.

(** ** The command line *)

(** [p.rfind(c)] for one character: the index of its last occurrence, or
    -1; the scan of [find_sep], run from the right end. *)
Definition rfind (c : char) (p : str) : Z :=
  match find_sep c (rev p) with
  | Some (_, before) => Z.of_nat (List.length before)
  | None => (-1)%Z
  end.

(** [p[i:j]] for [0 <= i]. *)
Definition slice (p : str) (i j : Z) : str :=
  firstn (Z.to_nat (j - i)) (skipn (Z.to_nat i) p).

(** [genericpath._splitext(p, sep, altsep, extsep)]: the extension starts
    at the last dot, when that dot comes after the last separator and some
    character between the two is not a dot. *)
Definition splitext_generic (sep : char) (altsep : option char) (extsep : char)
    (p : str) : str * str :=
  let sepIndex := rfind sep p in
  let sepIndex := match altsep with
                  | Some a => Z.max sepIndex (rfind a p)
                  | None => sepIndex
                  end in
  let dotIndex := rfind extsep p in
  if (sepIndex <? dotIndex)%Z then
    if forallb (fun c => c =? extsep) (slice p (sepIndex + 1) dotIndex) then (p, [])
    else (firstn (Z.to_nat dotIndex) p, skipn (Z.to_nat dotIndex) p)
  else (p, []).

(** The index of the last separator of a platform, as [_splitext] has it. *)
Definition last_sep (sep : char) (altsep : option char) (p : str) : Z :=
  match altsep with
  | Some a => Z.max (rfind sep p) (rfind a p)
  | None => rfind sep p
  end.

(** [os.path] is [posixpath] or [ntpath]. *)
Inductive platform := Posix | Windows.

Definition slash : char := 47.
Definition backslash : char := 92.

(** [os.path.splitext(p)] *)
Definition os_path_splitext (os : platform) (p : str) : str * str :=
  match os with
  | Posix => splitext_generic slash None dot p
  | Windows => splitext_generic backslash (Some slash) dot p
  end.

(** The separators of a platform. *)
Definition is_sep (os : platform) (c : char) : bool :=
  match os with
  | Posix => c =? slash
  | Windows => (c =? backslash) || (c =? slash)
  end.

(** How the script ends: with the usage message and [sys.exit(1)], or with
    a run of the builder. *)
Inductive cli :=
  | Usage (printed : list str) (code : Z)
  | Built (r : run).

(** The [__main__] block, for the list [sys.argv]. *)
Definition main (os : platform) (pretty_xml : element -> option str) (fs : filesystem)
    (argv : list str) : cli :=
  if (List.length argv <? 2)%nat then
    Usage [s2l "Usage: python edl2kdenlive.py <edl_file> [output_file]"] 1
  else
    let edl_file := nth 1 argv [] in
    let out_file :=
      if (2 <? List.length argv)%nat then nth 2 argv []
      else
        let base := fst (os_path_splitext os edl_file) in
        base ++ s2l ".kdenlive" in
    Built (create_kdenlive_project pretty_xml fs edl_file out_file).

(** * Properties *)

(** ** Splitting and stripping *)

Lemma str_eqb_eq (a b : str) : str_eqb a b = true <-> a = b.
Proof.
  unfold str_eqb. destruct (str_eq_dec a b); split; congruence.
Qed.

Lemma str_eqb_neq (a b : str) : str_eqb a b = false <-> a <> b.
Proof.
  unfold str_eqb. destruct (str_eq_dec a b); split; congruence.
Qed.

Lemma find_sep_app (sep : char) (a b : str) :
  ~ In sep a -> find_sep sep (a ++ sep :: b) = Some (a, b).
Proof.
  induction a as [|c a IH]; simpl; intros Hnot.
  - now rewrite N.eqb_refl.
  - destruct (N.eqb_spec c sep) as [->|_].
    + exfalso. apply Hnot. now left.
    + rewrite IH; [reflexivity|]. intros H. apply Hnot. now right.
Qed.

Lemma find_sep_some (sep : char) (s a b : str) :
  find_sep sep s = Some (a, b) -> s = a ++ sep :: b /\ ~ In sep a.
Proof.
  revert a. induction s as [|c s IH]; simpl; intros a H; [discriminate|].
  destruct (N.eqb_spec c sep) as [->|Hne].
  - inversion H; subst. split; [reflexivity|]. intros [].
  - destruct (find_sep sep s) as [[a' b']|] eqn:E; [|discriminate].
    inversion H; subst. destruct (IH a' eq_refl) as [-> Hnot].
    split; [reflexivity|]. intros [Hc|Hin]; [congruence|tauto].
Qed.

(** The split from the right at the last two commas: the last two parts
    hold no comma, the first one holds all the others. *)
Lemma rsplit_char_form (p0 f1 f2 : str) :
  ~ In comma f1 -> ~ In comma f2 ->
  rsplit_char comma 2 (p0 ++ comma :: f1 ++ comma :: f2) = [p0; f1; f2].
Proof.
  intros H1 H2. unfold rsplit_char.
  replace (rev (p0 ++ comma :: f1 ++ comma :: f2))
    with (rev f2 ++ comma :: (rev f1 ++ comma :: rev p0)).
  - simpl. rewrite find_sep_app by (now rewrite <- in_rev).
    rewrite find_sep_app by (now rewrite <- in_rev).
    simpl. now rewrite !rev_involutive.
  - rewrite rev_app_distr. simpl. rewrite rev_app_distr. simpl.
    now rewrite <- !app_assoc.
Qed.

Lemma rsplit_char_three (s p0 p1 p2 : str) :
  rsplit_char comma 2 s = [p0; p1; p2] ->
  s = p0 ++ comma :: p1 ++ comma :: p2 /\ ~ In comma p1 /\ ~ In comma p2.
Proof.
  unfold rsplit_char. intros H.
  apply (f_equal (@rev str)) in H. rewrite rev_involutive in H. simpl in H.
  destruct (find_sep comma (rev s)) as [[a b]|] eqn:Ea; [|discriminate].
  destruct (find_sep comma b) as [[a' b']|] eqn:Eb; [|discriminate].
  simpl in H. injection H as Ha Ha' Hb'.
  apply find_sep_some in Ea. destruct Ea as [Es Hna].
  apply find_sep_some in Eb. destruct Eb as [-> Hna'].
  assert (Ha2 : a = rev p2) by (now rewrite <- Ha, rev_involutive).
  assert (Ha1 : a' = rev p1) by (now rewrite <- Ha', rev_involutive).
  assert (Ha0 : b' = rev p0) by (now rewrite <- Hb', rev_involutive).
  subst a a' b'. rewrite <- in_rev in Hna, Hna'.
  split; [|tauto].
  rewrite <- (rev_involutive s), Es.
  rewrite rev_app_distr. simpl. rewrite rev_app_distr. simpl.
  now rewrite !rev_involutive, <- !app_assoc.
Qed.

Lemma lstrip_by_head (sp : char -> bool) (s : str) (c : char) (r : str) :
  lstrip_by sp s = c :: r -> sp c = false.
Proof.
  induction s as [|a s IH]; simpl; [discriminate|].
  destruct (sp a) eqn:E; [exact IH|]. intros H. now inversion H; subst.
Qed.

(** A stripped text does not begin with a whitespace character. *)
Lemma strip_by_head (sp : char -> bool) (s : str) (c : char) (r : str) :
  strip_by sp s = c :: r -> sp c = false.
Proof.
  unfold strip_by, rstrip_by.
  destruct (lstrip_by sp s) as [|a t] eqn:E; [discriminate|].
  assert (Ha : sp a = false) by (eapply lstrip_by_head; eassumption).
  intros H.
  assert (Hex : exists u, lstrip_by sp (rev (a :: t)) = u ++ [a]).
  { simpl. generalize (rev t). intros u.
    induction u as [|b u IH]; simpl.
    - rewrite Ha. now exists [].
    - destruct (sp b); [exact IH|]. now exists (b :: u). }
  destruct Hex as [u Hu]. rewrite Hu, rev_app_distr in H. simpl in H.
  now inversion H; subst.
Qed.

Lemma strip_by_nil_head (sp : char -> bool) (c : char) (r : str) :
  strip_by sp (c :: r) = [] -> sp c = true.
Proof.
  unfold strip_by, rstrip_by. simpl. destruct (sp c) eqn:E; [reflexivity|].
  intros H. exfalso.
  apply (f_equal (@rev char)) in H. rewrite rev_involutive in H. simpl in H.
  revert H. generalize (rev r). intros u.
  induction u as [|b u IH]; simpl.
  - now rewrite E.
  - destruct (sp b); [exact IH|discriminate].
Qed.

Lemma lstrip_by_spaces_app (sp : char -> bool) (t s : str) :
  forallb sp t = true -> lstrip_by sp (t ++ s) = lstrip_by sp s.
Proof.
  induction t as [|c t IH]; simpl; [reflexivity|].
  intros H. apply andb_prop in H. destruct H as [Hc Ht]. now rewrite Hc, IH.
Qed.

Lemma lstrip_by_app_keep (sp : char -> bool) (s t : str) :
  lstrip_by sp s <> [] -> lstrip_by sp (s ++ t) = lstrip_by sp s ++ t.
Proof.
  induction s as [|a s IH]; simpl; [congruence|].
  destruct (sp a); [exact IH|reflexivity].
Qed.

Lemma lstrip_by_nil (sp : char -> bool) (s : str) :
  lstrip_by sp s = [] -> forallb sp s = true.
Proof.
  induction s as [|a s IH]; simpl; [reflexivity|].
  destruct (sp a); [exact IH|discriminate].
Qed.

Lemma rstrip_by_app_spaces (sp : char -> bool) (s t : str) :
  forallb sp t = true -> rstrip_by sp (s ++ t) = rstrip_by sp s.
Proof.
  intros Ht. unfold rstrip_by. rewrite rev_app_distr, lstrip_by_spaces_app; [reflexivity|].
  rewrite forallb_forall in *. intros x Hx. apply Ht. now apply in_rev.
Qed.

(** Whitespace around a text does not change what is left of it. *)
Lemma strip_by_around (sp : char -> bool) (t s t' : str) :
  forallb sp t = true -> forallb sp t' = true ->
  strip_by sp (t ++ s ++ t') = strip_by sp s.
Proof.
  intros Ht Ht'. unfold strip_by. rewrite (lstrip_by_spaces_app sp t _ Ht).
  destruct (lstrip_by sp s) as [|c r] eqn:E.
  - apply lstrip_by_nil in E.
    rewrite <- (app_nil_r (s ++ t')), lstrip_by_spaces_app; [reflexivity|].
    rewrite forallb_app, E, Ht'. reflexivity.
  - rewrite lstrip_by_app_keep by congruence. rewrite E.
    now apply rstrip_by_app_spaces.
Qed.

Lemma lstrip_by_snoc (sp : char -> bool) (u : str) (c : char) :
  sp c = false -> lstrip_by sp (u ++ [c]) = lstrip_by sp u ++ [c].
Proof.
  intros Hc. induction u as [|a u IH]; simpl.
  - now rewrite Hc.
  - destruct (sp a); [exact IH|reflexivity].
Qed.

Lemma rstrip_by_cons (sp : char -> bool) (c : char) (r : str) :
  sp c = false -> rstrip_by sp (c :: r) = c :: rstrip_by sp r.
Proof.
  intros Hc. unfold rstrip_by. simpl.
  rewrite (lstrip_by_snoc sp _ c Hc), rev_app_distr. reflexivity.
Qed.

Lemma lstrip_by_incl (sp : char -> bool) (s : str) (c : char) :
  In c (lstrip_by sp s) -> In c s.
Proof.
  induction s as [|a s IH]; simpl; [tauto|].
  destruct (sp a); [|tauto]. intros H. right. now apply IH.
Qed.

Lemma strip_by_incl (sp : char -> bool) (s : str) (c : char) :
  In c (strip_by sp s) -> In c s.
Proof.
  unfold strip_by, rstrip_by. rewrite <- in_rev. intros H.
  apply lstrip_by_incl in H. rewrite <- in_rev in H. now apply lstrip_by_incl in H.
Qed.

(** What is stripped from a text is whitespace. *)
Lemma lstrip_by_split (sp : char -> bool) (s : str) :
  exists t, s = t ++ lstrip_by sp s /\ forallb sp t = true.
Proof.
  induction s as [|c s [t [E Ht]]]; simpl.
  - now exists [].
  - destruct (sp c) eqn:Ec.
    + exists (c :: t). simpl. rewrite Ec, Ht. split; [now f_equal|reflexivity].
    + now exists [].
Qed.

Lemma rstrip_by_split (sp : char -> bool) (s : str) :
  exists t, s = rstrip_by sp s ++ t /\ forallb sp t = true.
Proof.
  unfold rstrip_by. destruct (lstrip_by_split sp (rev s)) as [t [E Ht]].
  exists (rev t). split.
  - rewrite <- rev_app_distr, <- E. now rewrite rev_involutive.
  - rewrite forallb_forall in *. intros x Hx. apply Ht. now apply in_rev.
Qed.

Lemma split_from_spaces (w t : str) :
  forallb is_space t = true -> split_from w t = flush w.
Proof.
  revert w. induction t as [|c t IH]; intros w; simpl; [reflexivity|].
  intros H. apply andb_prop in H. destruct H as [Hc Ht].
  rewrite Hc, (IH [] Ht). simpl. now rewrite app_nil_r.
Qed.

Lemma split_from_app_spaces (w a t : str) :
  forallb is_space t = true -> split_from w (a ++ t) = split_from w a.
Proof.
  intros Ht. revert w. induction a as [|c a IH]; intros w; simpl.
  - now apply split_from_spaces.
  - destruct (is_space c); now rewrite IH.
Qed.

Lemma split_from_spaces_app (t a : str) :
  forallb is_space t = true -> split_from [] (t ++ a) = split_from [] a.
Proof.
  induction t as [|c t IH]; simpl; [reflexivity|].
  intros H. apply andb_prop in H. destruct H as [Hc Ht]. rewrite Hc. now apply IH.
Qed.

(** Stripping takes whitespace, and nothing else, off both ends: what is
    left neither begins nor ends with a whitespace character. *)
Lemma strip_spec (s : str) :
  exists t t',
    s = t ++ strip s ++ t'
    /\ forallb is_space t = true /\ forallb is_space t' = true
    /\ (forall c r, strip s = c :: r -> is_space c = false)
    /\ (forall c r, strip s = r ++ [c] -> is_space c = false).
Proof.
  unfold strip, strip_by.
  destruct (lstrip_by_split is_space s) as [t [E Ht]].
  destruct (rstrip_by_split is_space (lstrip_by is_space s)) as [t' [E' Ht']].
  exists t, t'. repeat split; try assumption.
  - now rewrite <- E'.
  - intros c r. apply (strip_by_head is_space s).
  - intros c r H. unfold rstrip_by in H.
    apply (f_equal (@rev char)) in H. rewrite rev_involutive, rev_app_distr in H.
    simpl in H. eapply lstrip_by_head. exact H.
Qed.

(** The tokens of a line are those of the stripped line. *)
Lemma split_ws_strip (s : str) : split_ws (strip s) = split_ws s.
Proof.
  unfold split_ws, strip, strip_by.
  destruct (lstrip_by_split is_space s) as [t [E Ht]].
  destruct (rstrip_by_split is_space (lstrip_by is_space s)) as [t' [E' Ht']].
  rewrite E at 2. rewrite (split_from_spaces_app _ _ Ht).
  rewrite E' at 2. now rewrite (split_from_app_spaces _ _ _ Ht').
Qed.

Lemma find_sep_none (sep : char) (s : str) :
  find_sep sep s = None -> count_occ N.eq_dec s sep = 0%nat.
Proof.
  induction s as [|c s IH]; simpl; [reflexivity|].
  destruct (N.eqb_spec c sep) as [->|Hne]; [discriminate|].
  destruct (find_sep sep s) as [[a b]|]; [discriminate|]. intros _.
  destruct (N.eq_dec c sep); [contradiction|]. now apply IH.
Qed.

Lemma find_sep_count (sep : char) (s a b : str) :
  find_sep sep s = Some (a, b) ->
  count_occ N.eq_dec s sep = S (count_occ N.eq_dec b sep).
Proof.
  intros H. apply find_sep_some in H. destruct H as [-> Hnot].
  unfold str, char in *.
  rewrite count_occ_app. apply (count_occ_not_In N.eq_dec) in Hnot. rewrite Hnot.
  simpl. destruct (N.eq_dec sep sep); [reflexivity|contradiction].
Qed.

(** The number of parts of a split is set by the number of separators. *)
Lemma split_char_length (sep : char) (n : nat) (s : str) :
  List.length (split_char sep n s) = S (Nat.min n (count_occ N.eq_dec s sep)).
Proof.
  revert s. induction n as [|n IH]; intros s; simpl; [reflexivity|].
  destruct (find_sep sep s) as [[a b]|] eqn:E.
  - simpl. rewrite IH, (find_sep_count _ _ _ _ E). reflexivity.
  - now rewrite (find_sep_none _ _ E).
Qed.

Lemma rsplit_char_length (sep : char) (n : nat) (s : str) :
  List.length (rsplit_char sep n s) = S (Nat.min n (count_occ N.eq_dec s sep)).
Proof.
  unfold rsplit_char.
  now rewrite length_rev, length_map, split_char_length, count_occ_rev.
Qed.

Lemma count_occ_spaces (t : str) (c : char) :
  is_space c = false -> forallb is_space t = true -> count_occ N.eq_dec t c = 0%nat.
Proof.
  intros Hc Ht. apply count_occ_not_In. intros Hin.
  rewrite forallb_forall in Ht. apply Ht in Hin. congruence.
Qed.

(** A line splits at commas into as many parts as its stripped form does. *)
Lemma rsplit_char_length_strip (n : nat) (s : str) :
  List.length (rsplit_char comma n (strip s)) = List.length (rsplit_char comma n s).
Proof.
  rewrite !rsplit_char_length. do 2 f_equal.
  unfold strip, strip_by.
  destruct (lstrip_by_split is_space s) as [t [E Ht]].
  destruct (rstrip_by_split is_space (lstrip_by is_space s)) as [t' [E' Ht']].
  pose proof (count_occ_spaces t comma eq_refl Ht) as H0.
  pose proof (count_occ_spaces t' comma eq_refl Ht') as H1.
  unfold str, char in *.
  rewrite E at 2. rewrite E' at 2. rewrite !count_occ_app, H0, H1.
  lia.
Qed.

(** ** The line parser *)

Example float_tenth :
  float_of_str (s2l "0.1") = Some (S754_finite false 7205759403792794 (-56)).
Proof. vm_compute. reflexivity. Qed.

Lemma parse_not_skipped (line : str) :
  skipped (strip line) = false ->
  parse_edl_line line =
    match parse_fields (strip line) with
    | Ok r => (r, [])
    | Raise _ => (None, [warning (strip line)])
    end.
Proof. intros H. unfold parse_edl_line. now rewrite H. Qed.

Lemma parse_fields_comma (line p0 p1 p2 : str) :
  rsplit_char comma 2 line = [p0; p1; p2] ->
  parse_fields line =
    (start <- to_float p1 ;; length <- to_float p2 ;;
     Ok (Some {| path := strip p0; start := start; length := length |})).
Proof. intros H. unfold parse_fields. now rewrite H. Qed.

Lemma parse_fields_fallback (line : str) :
  List.length (rsplit_char comma 2 line) <> 3%nat ->
  parse_fields line =
    let parts := split_ws line in
    let n := List.length parts in
    if (n <? 3)%nat then Ok None
    else
      (start <- to_float (nth (n - 2) parts []) ;;
       length <- to_float (nth (n - 1) parts []) ;;
       Ok (Some {| path := join [space] (firstn (n - 2) parts);
                   start := start; length := length |})).
Proof.
  intros H. unfold parse_fields.
  destruct (Nat.eqb_spec (List.length (rsplit_char comma 2 line)) 3); [contradiction|].
  reflexivity.
Qed.

(** A blank line or a comment gives no record and no warning, whatever else
    it holds. *)
Lemma parse_skipped (line : str) :
  skipped (strip line) = true -> parse_edl_line line = (None, []).
Proof. intros H. unfold parse_edl_line. now rewrite H. Qed.

(** What the parser does with three comma-separated parts. *)
Lemma parse_three_parts (line p0 p1 p2 : str) :
  skipped (strip line) = false ->
  rsplit_char comma 2 (strip line) = [p0; p1; p2] ->
  parse_edl_line line =
    match float_of_str p1, float_of_str p2 with
    | Some s, Some l => (Some {| path := strip p0; start := s; length := l |}, [])
    | _, _ => (None, [warning (strip line)])
    end.
Proof.
  intros Hskip Hparts.
  rewrite (parse_not_skipped _ Hskip), (parse_fields_comma _ _ _ _ Hparts).
  unfold to_float.
  destruct (float_of_str p1) as [s|]; simpl; [|reflexivity].
  destruct (float_of_str p2) as [l|]; reflexivity.
Qed.

(** The [try] block raises nothing but [ValueError]. *)
Lemma parse_fields_raises (line : str) (e : exn) :
  parse_fields line = Raise e -> e = ValueError.
Proof.
  unfold parse_fields, to_float.
  destruct (negb _); cbv zeta; [destruct (_ <? 3)%nat; [discriminate|]|];
    repeat match goal with
           | |- context [float_of_str ?t] => destruct (float_of_str t); simpl
           end;
    intros H; inversion H; reflexivity.
Qed.

(** ** Numbers and the whitespace of a line *)

Lemma span_digits_spec (s d r : str) :
  span_digits s = (d, r) -> s = d ++ r /\ forallb is_digit d = true.
Proof.
  revert d r. induction s as [|c s IH]; simpl; intros d r H.
  - injection H as <- <-. now split.
  - destruct (is_digit c) eqn:Ec.
    + destruct (span_digits s) as [d' r']. injection H as <- <-.
      destruct (IH d' r' eq_refl) as [-> Hd]. simpl. now rewrite Ec.
    + injection H as <- <-. now split.
Qed.

Lemma read_sign_spec (s r : str) (neg : bool) :
  read_sign s = (neg, r) -> s = r \/ exists c, (c = 45 \/ c = 43) /\ s = c :: r.
Proof.
  destruct s as [|c s']; unfold read_sign.
  - intros H. injection H as _ <-. now left.
  - destruct (N.eqb_spec c 45) as [->|_].
    + intros H. injection H as _ <-. right. exists 45. auto.
    + destruct (N.eqb_spec c 43) as [->|_]; intros H; injection H as _ <-.
      * right. exists 43. auto.
      * now left.
Qed.

Lemma digits_above_space (d : str) (c : char) :
  forallb is_digit d = true -> In c d -> 32 < c.
Proof.
  intros Hd Hc. rewrite forallb_forall in Hd. apply Hd in Hc.
  unfold is_digit in Hc. apply andb_prop in Hc. destruct Hc as [Hc _].
  apply N.leb_le in Hc. lia.
Qed.

Lemma signed_digits_above_space (s r d : str) (neg : bool) (c : char) :
  read_sign s = (neg, r) -> span_digits r = (d, []) -> In c s -> 32 < c.
Proof.
  intros Hs Hd Hc. apply span_digits_spec in Hd. destruct Hd as [-> Hd].
  rewrite app_nil_r in Hs.
  destruct (read_sign_spec _ _ _ Hs) as [->|[x [Hx ->]]].
  - eapply digits_above_space; eassumption.
  - destruct Hc as [<-|Hc]; [destruct Hx; subst; lia|].
    eapply digits_above_space; eassumption.
Qed.

Lemma parse_exponent_chars (r : str) (e : Z) (c : char) :
  parse_exponent r = Some e -> In c r -> 32 < c.
Proof.
  destruct r as [|x r']; simpl; [tauto|].
  destruct ((x =? 101) || (x =? 69)) eqn:Ex; [|discriminate].
  destruct (read_sign r') as [neg r0] eqn:Es.
  destruct (span_digits r0) as [ds rest] eqn:Ed.
  destruct ds as [|d0 ds]; [discriminate|]. destruct rest; [|discriminate].
  intros _ [<-|Hc].
  - apply orb_prop in Ex. destruct Ex as [Ex|Ex]; apply N.eqb_eq in Ex; lia.
  - eapply signed_digits_above_space; eassumption.
Qed.

(** A text that reads as a number holds no character up to the space. *)
Lemma parse_decimal_chars (s : str) (x : float) (c : char) :
  parse_decimal s = Some x -> In c s -> 32 < c.
Proof.
  unfold parse_decimal. destruct (read_sign s) as [neg r0] eqn:Es.
  destruct (span_digits r0) as [ip r1] eqn:Ei.
  apply span_digits_spec in Ei. destruct Ei as [-> Hip].
  destruct (match r1 with [] => _ | _ :: _ => _ end) as [fp r2] eqn:Ef.
  destruct (ip ++ fp) as [|d ds] eqn:Eds; [discriminate|].
  destruct (parse_exponent r2) as [e|] eqn:Ee; [|discriminate]. intros _ Hc.
  assert (Hr1 : In c r1 -> 32 < c).
  { destruct r1 as [|y r]; [intros []|].
    destruct (N.eqb_spec y 46) as [->|_].
    - apply span_digits_spec in Ef. destruct Ef as [-> Hfp].
      intros [<-|H]; [lia|]. apply in_app_or in H. destruct H as [H|H].
      + eapply digits_above_space; eassumption.
      + eapply parse_exponent_chars; eassumption.
    - injection Ef as _ <-. eapply parse_exponent_chars; eassumption. }
  assert (Hr0 : In c (ip ++ r1) -> 32 < c).
  { intros H. apply in_app_or in H. destruct H as [H|H]; [|auto].
    eapply digits_above_space; eassumption. }
  destruct (read_sign_spec _ _ _ Es) as [->|[y [Hy ->]]]; [auto|].
  destruct Hc as [<-|Hc]; [destruct Hy; subst; lia|auto].
Qed.

Lemma lower_above_space (c : char) : 96 < lower c -> 32 < c.
Proof. unfold lower. destruct (_ && _) eqn:E; lia. Qed.

Lemma parse_inf_or_nan_chars (s : str) (x : float) (c : char) :
  parse_inf_or_nan s = Some x -> In c s -> 32 < c.
Proof.
  unfold parse_inf_or_nan. destruct (read_sign s) as [neg r] eqn:Es.
  intros H Hc.
  assert (Hw : forall y, In y (map lower r) -> 96 < y).
  { destruct (str_eqb (map lower r) (s2l "inf")) eqn:E1;
      [apply str_eqb_eq in E1; rewrite E1|].
    { intros y Hy. vm_compute in Hy. intuition (subst; lia). }
    destruct (str_eqb (map lower r) (s2l "infinity")) eqn:E2;
      [apply str_eqb_eq in E2; rewrite E2|].
    { intros y Hy. vm_compute in Hy. intuition (subst; lia). }
    destruct (str_eqb (map lower r) (s2l "nan")) eqn:E3;
      [apply str_eqb_eq in E3; rewrite E3|discriminate].
    intros y Hy. vm_compute in Hy. intuition (subst; lia). }
  assert (Hr : In c r -> 32 < c).
  { intros Hin. apply lower_above_space, Hw. now apply in_map. }
  destruct (read_sign_spec _ _ _ Es) as [->|[y [Hy ->]]]; [auto|].
  destruct Hc as [<-|Hc]; [destruct Hy; subst; lia|auto].
Qed.

Lemma drop_underscores_snoc (prev c : char) (a : str) :
  c <> 95 -> is_digit c = false ->
  drop_underscores prev (a ++ [c])
  = match drop_underscores prev a with
    | Some r => Some (r ++ [c])
    | None => None
    end.
Proof.
  intros Hc Hd. revert prev. induction a as [|x a IH]; intros prev; simpl.
  - destruct (N.eqb_spec c 95); [contradiction|]. rewrite Hd. simpl.
    destruct (prev =? 95); simpl; [reflexivity|].
    destruct (N.eqb_spec c 95); [contradiction|reflexivity].
  - destruct (x =? 95).
    + destruct (is_digit prev); [apply IH|reflexivity].
    + destruct (_ && _); [reflexivity|]. rewrite IH.
      destruct (drop_underscores x a); reflexivity.
Qed.

Lemma to_ascii_space (c : char) : is_space c = true -> to_ascii c <= 32.
Proof.
  unfold to_ascii. intros H. rewrite H.
  destruct (N.ltb_spec c 127) as [Hlt|_]; [|lia].
  unfold is_space in H.
  repeat (apply orb_prop in H; destruct H as [H|H]);
    try (apply andb_prop in H; destruct H as [H1 H2]; apply N.leb_le in H1, H2);
    try (apply N.eqb_eq in H); lia.
Qed.

Lemma float_of_str_snoc_space (a : str) (c : char) (l : float) :
  is_space c = true -> float_of_str (a ++ [c]) = Some l -> float_of_str a = Some l.
Proof.
  intros Hc. apply to_ascii_space in Hc. unfold float_of_str.
  rewrite map_app. simpl map.
  rewrite drop_underscores_snoc;
    [|lia|unfold is_digit; apply andb_false_intro1; apply N.leb_gt; lia].
  destruct (drop_underscores 0 (map to_ascii a)) as [r|]; [|discriminate].
  destruct (is_c_space (to_ascii c)) eqn:Esp.
  - pose proof (strip_by_around is_c_space [] r [to_ascii c] eq_refl) as E.
    simpl in E. rewrite Esp in E. now rewrite (E eq_refl).
  - assert (E : strip_by is_c_space (r ++ [to_ascii c])
                = lstrip_by is_c_space r ++ [to_ascii c]).
    { unfold strip_by, rstrip_by. rewrite (lstrip_by_snoc _ _ _ Esp).
      rewrite rev_app_distr. simpl. rewrite Esp. simpl. now rewrite rev_involutive. }
    rewrite E. intros H. exfalso.
    assert (Hin : In (to_ascii c) (lstrip_by is_c_space r ++ [to_ascii c]))
      by (apply in_or_app; right; now left).
    destruct (parse_decimal _) as [x|] eqn:Ed.
    + apply (parse_decimal_chars _ _ _ Ed) in Hin. lia.
    + apply (parse_inf_or_nan_chars _ _ _ H) in Hin. lia.
Qed.

Lemma float_of_str_app_spaces (a w : str) (l : float) :
  forallb is_space w = true -> float_of_str (a ++ w) = Some l -> float_of_str a = Some l.
Proof.
  induction w as [|c w IH] using rev_ind; intros Hw H.
  - now rewrite app_nil_r in H.
  - rewrite forallb_app in Hw. apply andb_prop in Hw. destruct Hw as [Hw Hc].
    simpl in Hc. rewrite andb_true_r in Hc.
    rewrite app_assoc in H. apply float_of_str_snoc_space in H; auto.
Qed.

(** The whitespace that ends a line is not in the way of reading its last
    field as a number. *)
Lemma float_of_str_rstrip (q : str) (l : float) :
  float_of_str q = Some l -> float_of_str (rstrip_by is_space q) = Some l.
Proof.
  destruct (rstrip_by_split is_space q) as [t [E Ht]]. intros H.
  rewrite E in H. eapply float_of_str_app_spaces; eassumption.
Qed.

Lemma lstrip_by_idem (sp : char -> bool) (s : str) :
  lstrip_by sp (lstrip_by sp s) = lstrip_by sp s.
Proof.
  destruct (lstrip_by sp s) as [|c r] eqn:E; [reflexivity|].
  apply lstrip_by_head in E. simpl. now rewrite E.
Qed.

Lemma lstrip_by_keep (sp : char -> bool) (a : str) (c : char) (r : str) :
  sp c = false -> lstrip_by sp (a ++ c :: r) = lstrip_by sp a ++ c :: r.
Proof.
  intros Hc. induction a as [|x a IH]; simpl.
  - now rewrite Hc.
  - destruct (sp x); [exact IH|reflexivity].
Qed.

(** The stripped form of a line that holds commas. *)
Lemma strip_comma_line (a m b : str) :
  strip (a ++ comma :: m ++ comma :: b)
  = lstrip_by is_space a ++ comma :: m ++ comma :: rstrip_by is_space b.
Proof.
  unfold strip, strip_by. rewrite (lstrip_by_keep is_space a comma _ eq_refl).
  assert (E : forall x : str,
             x ++ comma :: m ++ comma :: b = (x ++ comma :: m) ++ comma :: b)
    by (intros x; rewrite <- app_assoc; reflexivity).
  rewrite E. unfold rstrip_by at 1. rewrite rev_app_distr. simpl rev at 1.
  rewrite <- app_assoc. simpl app at 1.
  rewrite (lstrip_by_keep is_space (rev b) comma _ eq_refl).
  rewrite rev_app_distr. simpl rev at 1. rewrite rev_involutive.
  rewrite <- !app_assoc. reflexivity.
Qed.

(** A text that begins and ends with no whitespace. *)
Lemma strip_by_trimmed (sp : char -> bool) (b : str) :
  (forall c r, b = c :: r -> sp c = false) ->
  (forall c r, b = r ++ [c] -> sp c = false) ->
  strip_by sp b = b.
Proof.
  intros Hhd Htl. unfold strip_by, rstrip_by.
  assert (E : lstrip_by sp b = b).
  { destruct b as [|c r]; [reflexivity|]. simpl. now rewrite (Hhd c r eq_refl). }
  rewrite E. destruct (rev b) as [|c r] eqn:Er.
  - simpl. apply (f_equal (@rev char)) in Er. now rewrite rev_involutive in Er.
  - simpl. rewrite (Htl c (rev r)).
    + rewrite <- Er. apply rev_involutive.
    + rewrite <- (rev_involutive b), Er. reflexivity.
Qed.

Lemma skipped_cons (c : char) (t : str) : skipped (c :: t) = (hash =? c).
Proof. unfold skipped, startswith. apply andb_true_r. Qed.

(** What the parser does with a line that splits into three parts, in
    terms of the parts of the line as it is given. *)
Lemma parse_three_raw_parts (line q0 q1 q2 : str) (s l : float) :
  rsplit_char comma 2 line = [q0; q1; q2] ->
  (forall r, strip q0 <> hash :: r) ->
  float_of_str q1 = Some s -> float_of_str q2 = Some l ->
  parse_edl_line line = (Some {| path := strip q0; start := s; length := l |}, []).
Proof.
  intros Hparts Hhash Hs Hl.
  apply rsplit_char_three in Hparts. destruct Hparts as [-> [Hc1 Hc2]].
  assert (Hc2' : ~ In comma (rstrip_by is_space q2)).
  { intros H. apply Hc2. unfold rstrip_by in H. rewrite <- in_rev in H.
    apply lstrip_by_incl in H. now rewrite <- in_rev in H. }
  rewrite (parse_three_parts _ (lstrip_by is_space q0) q1 (rstrip_by is_space q2)).
  - rewrite Hs, (float_of_str_rstrip _ _ Hl). do 3 f_equal.
    unfold strip, strip_by. now rewrite lstrip_by_idem.
  - rewrite strip_comma_line.
    destruct (lstrip_by is_space q0) as [|c r] eqn:E; [reflexivity|].
    rewrite <- app_comm_cons, skipped_cons.
    destruct (N.eqb_spec hash c) as [<-|_]; [|reflexivity].
    exfalso. apply (Hhash (rstrip_by is_space r)).
    unfold strip, strip_by. rewrite E. now apply rstrip_by_cons.
  - rewrite strip_comma_line. now apply rsplit_char_form.
Qed.

(** C3. A line made of a first part, a comma, a start field, a comma and a
    length field, where the two fields hold no comma and are numbers, and
    where the first part, once the whitespace around it is taken away, does
    not begin with the comment marker: the parser returns the record whose
    path is the first part without the whitespace around it (the commas in
    it are kept) and whose start and length are the values of the two
    fields; nothing is printed. *)
Theorem parse_comma_line (u p u' f1 f2 : str) (s l : float) :
  forallb is_space u = true -> forallb is_space u' = true ->
  trimmed p -> (forall r, p <> hash :: r) ->
  ~ In comma f1 -> ~ In comma f2 ->
  float_of_str f1 = Some s -> float_of_str f2 = Some l ->
  parse_edl_line ((u ++ p ++ u') ++ comma :: f1 ++ comma :: f2)
  = (Some {| path := p; start := s; length := l |}, []).
Proof.
  intros Hu Hu' [Hhd Htl] Hhash H1 H2 Hs Hl.
  assert (E : strip (u ++ p ++ u') = p).
  { unfold strip. rewrite (strip_by_around is_space u p u' Hu Hu').
    now apply strip_by_trimmed. }
  rewrite (parse_three_raw_parts _ (u ++ p ++ u') f1 f2 s l).
  - now rewrite E.
  - now apply rsplit_char_form.
  - now rewrite E.
  - assumption.
  - assumption.
Qed.

(** Two spaces before the path, a space and a tab after it, commas inside
    it, and the newline of the file at the end of the line. *)
Lemma parse_comma_line_witness :
  parse_edl_line (s2l "  /a, b/clip.mp4 " ++ 9 :: s2l ", 1.0, 2.5" ++ [10]) =
    (Some {| path := s2l "/a, b/clip.mp4";
             start := S754_finite false 4503599627370496 (-52);
             length := S754_finite false 5629499534213120 (-51) |}, []).
Proof.
  apply (parse_comma_line (s2l "  ") (s2l "/a, b/clip.mp4") [32; 9]
           (s2l " 1.0") (s2l " 2.5" ++ [10])).
  - reflexivity.
  - reflexivity.
  - split; intros c r E.
    + injection E as <- _. reflexivity.
    + apply (f_equal (@rev char)) in E. rewrite rev_unit in E.
      injection E as <- _. reflexivity.
  - intros r E. discriminate E.
  - simpl. intuition discriminate.
  - simpl. intuition discriminate.
  - vm_compute. reflexivity.
  - vm_compute. reflexivity.
Defined.

(** C5. A line that is not blank or a comment and that splits into exactly
    three comma-separated parts, one of the last two of them not a number,
    gives no record and exactly one warning, which names the stripped line;
    the tokens that a split at whitespace would give play no part. *)
Theorem parse_comma_line_invalid (line p0 p1 p2 : str) :
  skipped (strip line) = false ->
  rsplit_char comma 2 (strip line) = [p0; p1; p2] ->
  float_of_str p1 = None \/ float_of_str p2 = None ->
  parse_edl_line line = (None, [warning (strip line)]).
Proof.
  intros Hskip Hparts Hbad.
  rewrite (parse_three_parts line p0 p1 p2 Hskip Hparts).
  destruct Hbad as [Hbad|Hbad]; rewrite Hbad; [reflexivity|].
  destruct (float_of_str p1); reflexivity.
Qed.

(** The tokens of this line would make a record in the fallback format; the
    line is invalid all the same. *)
Lemma parse_comma_line_invalid_witness :
  (exists b s l, split_ws (s2l "x,y,z 1.0 2.5") = [b; s; l]
                 /\ float_of_str s <> None /\ float_of_str l <> None)
  /\ parse_edl_line (s2l "x,y,z 1.0 2.5")
     = (None, [s2l "[Warn] Skipping invalid line format: x,y,z 1.0 2.5"]).
Proof.
  split.
  - exists (s2l "x,y,z"), (s2l "1.0"), (s2l "2.5"). vm_compute. repeat split; discriminate.
  - apply (parse_comma_line_invalid (s2l "x,y,z 1.0 2.5") (s2l "x") (s2l "y") (s2l "z 1.0 2.5"));
      vm_compute; auto.
Defined.

(** C6. A line that is not blank or a comment, that does not split into
    exactly three comma-separated parts, and whose whitespace-separated
    tokens are three or more with the last two numeric, gives the record
    whose path is the tokens before the last two joined by single spaces
    and whose start and length are the values of the last two tokens. *)
Theorem parse_fallback_line (line : str) (toks : list str) (t1 t2 : str) (s l : float) :
  skipped (strip line) = false ->
  List.length (rsplit_char comma 2 line) <> 3%nat ->
  split_ws line = toks ++ [t1; t2] ->
  toks <> [] ->
  float_of_str t1 = Some s ->
  float_of_str t2 = Some l ->
  parse_edl_line line = (Some {| path := join [space] toks; start := s; length := l |}, []).
Proof.
  intros Hskip Hparts Htoks Hne Hs Hl.
  rewrite <- rsplit_char_length_strip in Hparts. rewrite <- split_ws_strip in Htoks.
  rewrite (parse_not_skipped _ Hskip), (parse_fields_fallback _ Hparts), Htoks.
  cbv zeta. rewrite length_app. simpl List.length.
  destruct toks as [|t toks]; [congruence|]. simpl List.length.
  replace (S (List.length toks) + 2 <? 3)%nat with false
    by (symmetry; apply Nat.ltb_ge; lia).
  replace (S (List.length toks) + 2 - 2)%nat with (List.length (t :: toks))
    by (simpl; lia).
  replace (S (List.length toks) + 2 - 1)%nat with (S (List.length (t :: toks)))
    by (simpl; lia).
  rewrite firstn_app, firstn_all, Nat.sub_diag, app_nil_r.
  rewrite app_nth2 by lia. rewrite Nat.sub_diag.
  rewrite app_nth2 by lia.
  replace (S (List.length (t :: toks)) - List.length (t :: toks))%nat with 1%nat by lia.
  simpl nth. unfold to_float. now rewrite Hs, Hl.
Qed.

Lemma parse_fallback_line_witness :
  parse_edl_line (s2l "my clip.mp4 1.0 2.5") =
    (Some {| path := s2l "my clip.mp4";
             start := S754_finite false 4503599627370496 (-52);
             length := S754_finite false 5629499534213120 (-51) |}, []).
Proof.
  apply (parse_fallback_line (s2l "my clip.mp4 1.0 2.5")
           [s2l "my"; s2l "clip.mp4"] (s2l "1.0") (s2l "2.5"));
    vm_compute; congruence.
Defined.

(** C4. A line that is not blank or a comment, that does not split into
    exactly three comma-separated parts and that has fewer than three
    whitespace-separated tokens gives no record, and nothing is printed:
    the early return is taken before any warning. *)
Theorem parse_short_line_silent (line : str) :
  skipped (strip line) = false ->
  List.length (rsplit_char comma 2 line) <> 3%nat ->
  (List.length (split_ws line) < 3)%nat ->
  parse_edl_line line = (None, []).
Proof.
  intros Hskip Hparts Hshort.
  rewrite <- rsplit_char_length_strip in Hparts. rewrite <- split_ws_strip in Hshort.
  rewrite (parse_not_skipped _ Hskip), (parse_fields_fallback _ Hparts).
  cbv zeta. apply Nat.ltb_lt in Hshort. now rewrite Hshort.
Qed.

Lemma parse_short_line_silent_witness :
  parse_edl_line (s2l "foo bar") = (None, []).
Proof.
  apply parse_short_line_silent; vm_compute; [reflexivity|congruence|lia].
Defined.

(** The same text with one more token takes the other path for a malformed
    line, which prints the warning. *)
Example malformed_line_warned :
  parse_edl_line (s2l "foo bar baz")
  = (None, [s2l "[Warn] Skipping invalid line format: foo bar baz"]).
Proof. vm_compute. reflexivity. Qed.

(** ** The registry of source paths *)

Lemma dict_mem_in (k : str) (d : dict) : dict_mem k d = true <-> In k (map fst d).
Proof.
  unfold dict_mem. rewrite existsb_exists, in_map_iff. split.
  - intros [kv [Hin Heq]]. apply str_eqb_eq in Heq. now exists kv.
  - intros [kv [Heq Hin]]. exists kv. split; [assumption|]. now apply str_eqb_eq.
Qed.

Lemma dict_get_in (k v : str) (d : dict) : dict_get k d = Some v -> In (k, v) d.
Proof.
  unfold dict_get. destruct (find _ d) as [[k' v']|] eqn:E; [|discriminate].
  apply find_some in E. destruct E as [Hin Heq]. apply str_eqb_eq in Heq.
  simpl in *. intros H. inversion H; subst. assumption.
Qed.

Lemma dict_get_key (k : str) (d : dict) :
  In k (map fst d) -> exists v, dict_get k d = Some v.
Proof.
  unfold dict_get. induction d as [|[k' v'] d IH]; simpl; [tauto|].
  destruct (str_eqb k' k) eqn:E.
  - intros _. now exists v'.
  - intros [H|H]; [|now apply IH]. apply str_eqb_neq in E. congruence.
Qed.

Lemma first_index_lt (p : str) (l : list str) :
  In p l -> (first_index p l < List.length l)%nat.
Proof.
  induction l as [|q l IH]; simpl; [tauto|].
  destruct (str_eqb q p) eqn:E; [lia|].
  apply str_eqb_neq in E. intros [H|H]; [congruence|]. apply IH in H. lia.
Qed.

Lemma first_index_app_in (p : str) (l l' : list str) :
  In p l -> first_index p (l ++ l') = first_index p l.
Proof.
  induction l as [|q l IH]; simpl; [tauto|].
  destruct (str_eqb q p) eqn:E; [reflexivity|].
  apply str_eqb_neq in E. intros [H|H]; [congruence|]. now rewrite IH.
Qed.

Lemma first_index_app_notin (p : str) (l l' : list str) :
  ~ In p l -> first_index p (l ++ l') = (List.length l + first_index p l')%nat.
Proof.
  induction l as [|q l IH]; simpl; [reflexivity|]. intros H.
  destruct (str_eqb q p) eqn:E.
  - apply str_eqb_eq in E. tauto.
  - rewrite IH; tauto.
Qed.

Lemma s2l_inj (a b : string) : s2l a = s2l b -> a = b.
Proof.
  unfold s2l. intros H.
  rewrite <- (string_of_list_ascii_of_string a), <- (string_of_list_ascii_of_string b).
  f_equal. revert H. generalize (list_ascii_of_string b).
  induction (list_ascii_of_string a) as [|x l IH]; intros [|y l']; simpl;
    try discriminate; [reflexivity|].
  intros H. injection H as Hxy Hl. f_equal; [|now apply IH].
  now rewrite <- (ascii_N_embedding x), <- (ascii_N_embedding y), Hxy.
Qed.

Lemma str_nat_inj (n m : nat) : str_nat n = str_nat m -> n = m.
Proof.
  unfold str_nat. intros H. apply s2l_inj in H.
  assert (Hnil : forall k, Nat.to_uint k <> Decimal.Nil).
  { intros k. rewrite <- (DecimalNat.Unsigned.of_to k) at 1.
    rewrite DecimalNat.Unsigned.to_of. apply DecimalFacts.unorm_nonnil. }
  apply DecimalNat.Unsigned.to_uint_inj.
  assert (E : Some (Nat.to_uint n) = Some (Nat.to_uint m)).
  { rewrite <- (NilZero.usu _ (Hnil n)), <- (NilZero.usu _ (Hnil m)). now rewrite H. }
  now inversion E.
Qed.

Lemma producer_id_inj (n m : nat) : producer_id n = producer_id m -> n = m.
Proof.
  unfold producer_id. intros H. apply app_inv_head in H. now apply str_nat_inj.
Qed.

Lemma registry_inv_init : registry_inv [] scan_init.
Proof.
  split; simpl; try reflexivity; try tauto.
  - constructor.
  - intros i j p q _ H. destruct i; discriminate.
Qed.

Lemma registry_inv_step (cs : list cut) (st : scan_state) (c : cut) :
  registry_inv cs st -> registry_inv (cs ++ [c]) (add_cut st c).
Proof.
  intros [Hcuts Hcnt Hids Hnd Hkeys Hord]. unfold add_cut.
  destruct (dict_mem (path c) (unique_paths st)) eqn:Hmem; simpl.
  - (* a path already in the registry *)
    apply dict_mem_in in Hmem.
    split; simpl; try assumption.
    + now rewrite Hcuts.
    + intros p. rewrite map_app, in_app_iff, Hkeys. simpl. split; [tauto|].
      intros [H|[<-|[]]]; [assumption|]. now apply Hkeys.
    + intros i j p q Hij Hp Hq. rewrite map_app.
      rewrite !first_index_app_in.
      * apply (Hord i j p q); assumption.
      * apply Hkeys. eapply nth_error_In; eassumption.
      * apply Hkeys. eapply nth_error_In; eassumption.
  - (* a new path *)
    assert (Hnew : ~ In (path c) (map fst (unique_paths st))).
    { intros H. apply dict_mem_in in H. congruence. }
    split; simpl.
    + now rewrite Hcuts.
    + rewrite length_app. simpl. lia.
    + rewrite map_app, length_app. simpl.
      rewrite Nat.add_1_r, seq_S, map_app, Hids, Hcnt. reflexivity.
    + rewrite map_app. simpl. apply NoDup_app; [assumption|repeat constructor; intros []|].
      intros x Hx [<-|[]]. contradiction.
    + intros p. rewrite !map_app, !in_app_iff, Hkeys. simpl. tauto.
    + intros i j p q Hij. rewrite !map_app. simpl.
      set (keys := map fst (unique_paths st)) in *.
      assert (Hlen : forall k x, nth_error (keys ++ [path c]) k = Some x ->
                 ((k < List.length keys)%nat /\ nth_error keys k = Some x)
                 \/ (k = List.length keys /\ x = path c)).
      { intros k x Hk. destruct (Nat.lt_ge_cases k (List.length keys)) as [Hlt|Hge].
        - left. split; [assumption|]. now rewrite nth_error_app1 in Hk.
        - right. rewrite nth_error_app2 in Hk by assumption.
          destruct (k - List.length keys)%nat as [|[|d]] eqn:Ed; simpl in Hk;
            try discriminate. split; [lia|congruence]. }
      intros Hp Hq.
      destruct (Hlen _ _ Hp) as [[Hi Hp']|[Hi ->]];
        destruct (Hlen _ _ Hq) as [[Hj Hq']|[Hj ->]]; try lia.
      * rewrite !first_index_app_in.
        -- apply (Hord i j p q); assumption.
        -- apply Hkeys. eapply nth_error_In; eassumption.
        -- apply Hkeys. eapply nth_error_In; eassumption.
      * assert (Hin : In p (map path cs)) by (apply Hkeys; eapply nth_error_In; eassumption).
        rewrite first_index_app_in by assumption.
        rewrite first_index_app_notin by (now rewrite <- Hkeys).
        apply first_index_lt in Hin. lia.
Qed.

Lemma collect_snoc (cs : list cut) (c : cut) :
  collect (cs ++ [c]) = add_cut (collect cs) c.
Proof. unfold collect. now rewrite fold_left_app. Qed.

Lemma collect_inv (cs : list cut) : registry_inv cs (collect cs).
Proof.
  induction cs as [|c cs IH] using rev_ind.
  - exact registry_inv_init.
  - rewrite collect_snoc. now apply registry_inv_step.
Qed.

(** The loop over the lines: the cuts are the accepted records, in order. *)
Lemma scan_fold (lines : list str) (st : scan_state) (out : list str) :
  fold_left scan_line lines (st, out)
  = (fold_left add_cut (accepted lines) st,
     out ++ flat_map (fun line => snd (parse_edl_line line)) lines).
Proof.
  revert st out. induction lines as [|line lines IH]; intros st out; simpl.
  - now rewrite app_nil_r.
  - destruct (parse_edl_line line) as [[c|] printed]; simpl;
      rewrite IH, <- app_assoc; reflexivity.
Qed.

Lemma scan_collect (lines : list str) (out : list str) :
  scan lines out
  = (collect (accepted lines),
     out ++ flat_map (fun line => snd (parse_edl_line line)) lines).
Proof. apply scan_fold. Qed.

(** ** The document *)

Lemma fold_append {A : Type} (f : A -> element) (l : list A) (r : element) :
  fold_left (fun r x => append (f x) r) l r
  = Element (tag r) (attrib r) (text r) (children r ++ map f l).
Proof.
  revert r. induction l as [|a l IH]; intros [t at_ x c]; simpl.
  - now rewrite app_nil_r.
  - rewrite IH. simpl. now rewrite <- app_assoc.
Qed.

Lemma mapM_ok {A B : Type} (f : A -> result B) (l : list A) :
  (forall a, In a l -> exists b, f a = Ok b) ->
  exists bs, mapM f l = Ok bs /\ Forall2 (fun a b => f a = Ok b) l bs.
Proof.
  induction l as [|a l IH]; simpl; intros H.
  - exists []. split; [reflexivity|constructor].
  - destruct (H a (or_introl eq_refl)) as [b Hb].
    destruct IH as [bs [Hbs Hall]]; [intros x Hx; apply H; now right|].
    exists (b :: bs). rewrite Hb, Hbs. split; [reflexivity|now constructor].
Qed.

Lemma entry_element_view (reg : dict) (c : cut) (el : element) :
  entry_element reg c = Ok el ->
  exists pid, dict_get (path c) reg = Some pid
    /\ entry_view el = {| entry_producer := Some pid;
                          entry_in := Some (format_3f (start c));
                          entry_out := Some (format_3f (float_add (start c) (length c))) |}.
Proof.
  unfold entry_element. destruct (dict_get (path c) reg) as [pid|]; [|discriminate].
  intros H. injection H as <-. exists pid. split; reflexivity.
Qed.

Lemma producer_element_view (item : str * str) :
  has_tag (s2l "producer") (producer_element item) = true
  /\ has_tag (s2l "playlist") (producer_element item) = false
  /\ get_attr (s2l "id") (producer_element item) = Some (snd item)
  /\ resource (producer_element item) = Some (fst item).
Proof. destruct item as [p pid]. repeat split; reflexivity. Qed.

(** The children of the root: the producers in the order of the registry,
    the playlist with one entry per cut, the tractor. *)
Lemma build_document_children (st : scan_state) :
  (forall c, In c (cuts st) -> In (path c) (map fst (unique_paths st))) ->
  exists root es,
    build_document st = Ok root
    /\ Forall2 (fun c e => entry_element (unique_paths st) c = Ok e) (cuts st) es
    /\ producer_descriptors root
       = map (fun item => (Some (snd item), Some (fst item))) (unique_paths st)
    /\ playlist_entries root = map entry_view es.
Proof.
  intros Hkeys. unfold build_document.
  destruct (mapM_ok (entry_element (unique_paths st)) (cuts st)) as [es [Hes Hall]].
  { intros c Hc. destruct (dict_get_key _ _ (Hkeys c Hc)) as [pid Hpid].
    unfold entry_element. rewrite Hpid. eexists. reflexivity. }
  rewrite Hes. simpl. eexists. exists es. split; [reflexivity|].
  split; [assumption|].
  rewrite !fold_append, map_id.
  unfold producer_descriptors, playlist_entries. simpl children.
  rewrite !filter_app.
  assert (Hp : forall l, filter (has_tag (s2l "producer")) (map producer_element l)
                         = map producer_element l).
  { induction l as [|item l IH]; simpl; [reflexivity|].
    destruct (producer_element_view item) as [-> _]. now rewrite IH. }
  assert (Hq : forall l, filter (has_tag (s2l "playlist")) (map producer_element l) = []).
  { induction l as [|item l IH]; simpl; [reflexivity|].
    destruct (producer_element_view item) as [_ [-> _]]. exact IH. }
  rewrite Hp, Hq. split.
  - change (filter (has_tag (s2l "producer")) [Element _ _ _ es]) with (@nil element).
    change (filter (has_tag (s2l "producer")) [tractor_element]) with (@nil element).
    rewrite !app_nil_r, map_map. apply map_ext. intros item.
    destruct (producer_element_view item) as [_ [_ [-> ->]]]. reflexivity.
  - simpl. now rewrite app_nil_r.
Qed.

Lemma collect_document (cs : list cut) :
  exists root es,
    build_document (collect cs) = Ok root
    /\ Forall2 (fun c e => entry_element (unique_paths (collect cs)) c = Ok e) cs es
    /\ producer_descriptors root
       = map (fun item => (Some (snd item), Some (fst item))) (unique_paths (collect cs))
    /\ playlist_entries root = map entry_view es.
Proof.
  destruct (collect_inv cs) as [Hcuts _ _ _ Hkeys _].
  destruct (build_document_children (collect cs)) as [root [es H]].
  - intros c Hc. apply Hkeys. rewrite Hcuts in Hc. now apply in_map.
  - rewrite Hcuts in H. now exists root, es.
Qed.

Lemma Forall2_nth_error {A B : Type} (R : A -> B -> Prop) (l : list A) (l' : list B)
      (k : nat) (a : A) :
  Forall2 R l l' -> nth_error l k = Some a ->
  exists b, nth_error l' k = Some b /\ R a b.
Proof.
  intros H. revert k. induction H as [|x y l l' Hxy _ IH]; intros [|k]; simpl;
    try discriminate.
  - intros E. injection E as <-. now exists y.
  - apply IH.
Qed.

Lemma Forall2_length_eq {A B : Type} (R : A -> B -> Prop) (l : list A) (l' : list B) :
  Forall2 R l l' -> List.length l = List.length l'.
Proof. induction 1; simpl; congruence. Qed.

(** C1. For every sequence of cuts, the builder makes a document. Its
    producer descriptors are as many as the distinct paths of the cuts, one
    for each of them and no two for the same path; their identifiers are
    producer0, producer1, ... in document order, all different; a path that
    appears first earlier in the cuts has its descriptor earlier. The playlist
    has as many entries as there are cuts, and the k-th entry is the one of
    the k-th cut: it refers to the identifier of the descriptor of that cut's
    path and carries that cut's in and out points. *)
Theorem document_structure (cs : list cut) :
  exists root,
    build_document (collect cs) = Ok root /\
    let paths := map path cs in
    let ps := producer_descriptors root in
    let es := playlist_entries root in
    List.length ps = List.length (nodup str_eq_dec paths)
    /\ (forall p, In p paths <-> In (Some p) (map snd ps))
    /\ NoDup (map snd ps)
    /\ map fst ps
       = map (fun k => Some (s2l "producer" ++ str_nat k)) (seq 0 (List.length ps))
    /\ NoDup (map fst ps)
    /\ (forall i j p q, (i < j)%nat ->
          nth_error (map snd ps) i = Some (Some p) ->
          nth_error (map snd ps) j = Some (Some q) ->
          (first_index p paths < first_index q paths)%nat)
    /\ List.length es = List.length cs
    /\ (forall k c, nth_error cs k = Some c ->
          exists pid,
            nth_error es k
            = Some {| entry_producer := Some pid;
                      entry_in := Some (format_3f (start c));
                      entry_out := Some (format_3f (float_add (start c) (length c))) |}
            /\ In (Some pid, Some (path c)) ps).
Proof.
  destruct (collect_document cs) as [root [els [Hroot [Hall [Hps Hes]]]]].
  destruct (collect_inv cs) as [_ _ Hids Hnd Hkeys Hord].
  exists root. split; [assumption|]. cbv zeta.
  set (reg := unique_paths (collect cs)) in *.
  assert (Hsnd : map snd (producer_descriptors root) = map Some (map fst reg)).
  { rewrite Hps, !map_map. reflexivity. }
  assert (Hfst : map fst (producer_descriptors root) = map Some (map snd reg)).
  { rewrite Hps, !map_map. reflexivity. }
  assert (Hlen : List.length (producer_descriptors root) = List.length reg).
  { now rewrite Hps, length_map. }
  assert (Hinj : Injective (@Some str)) by (intros x y E; now inversion E).
  repeat split.
  - rewrite Hlen, <- (length_map fst reg). apply Permutation_length.
    apply NoDup_Permutation; [assumption|apply NoDup_nodup|].
    intros p. now rewrite nodup_In.
  - intros Hp. rewrite Hsnd. apply in_map. now apply Hkeys.
  - rewrite Hsnd, in_map_iff. intros [p' [E Hp']]. inversion E; subst. now apply Hkeys.
  - rewrite Hsnd. now apply Injective_map_NoDup.
  - rewrite Hfst, Hlen, Hids, map_map. reflexivity.
  - rewrite Hfst, Hids. apply Injective_map_NoDup; [assumption|].
    apply Injective_map_NoDup; [|apply seq_NoDup].
    intros n m. apply producer_id_inj.
  - intros i j p q Hij Hp Hq. rewrite Hsnd in Hp, Hq.
    rewrite nth_error_map in Hp, Hq.
    destruct (nth_error (map fst reg) i) as [p'|] eqn:Ep; [|discriminate].
    destruct (nth_error (map fst reg) j) as [q'|] eqn:Eq; [|discriminate].
    simpl in Hp, Hq. inversion Hp; inversion Hq; subst.
    apply (Hord i j p q); assumption.
  - rewrite Hes, length_map. symmetry. eapply Forall2_length_eq; eassumption.
  - intros k c Hk.
    destruct (Forall2_nth_error _ _ _ _ _ Hall Hk) as [el [Hel Hentry]].
    destruct (entry_element_view _ _ _ Hentry) as [pid [Hpid Hview]].
    exists pid. split.
    + rewrite Hes, nth_error_map, Hel. simpl. now rewrite Hview.
    + rewrite Hps. apply dict_get_in in Hpid.
      change (Some pid, Some (path c))
        with ((fun item : str * str => (Some (snd item), Some (fst item))) (path c, pid)).
      now apply in_map.
Qed.

(** Twelve cuts of eleven files, the first file cut twice: the document
    has eleven producers, producer0 to producer10, in the order in which
    the files first appear, and the entries of the two cuts of the first
    file refer to producer0. *)
Lemma document_structure_witness :
  let c := fun p => {| path := p; start := zero; length := zero |} in
  let cs := [c (s2l "k.mp4"); c (s2l "j.mp4"); c (s2l "k.mp4"); c (s2l "i.mp4");
             c (s2l "h.mp4"); c (s2l "g.mp4"); c (s2l "f.mp4"); c (s2l "e.mp4");
             c (s2l "d.mp4"); c (s2l "c.mp4"); c (s2l "b.mp4"); c (s2l "a.mp4")] in
  exists root,
    build_document (collect cs) = Ok root
    /\ map fst (producer_descriptors root)
       = map Some [s2l "producer0"; s2l "producer1"; s2l "producer2"; s2l "producer3";
                   s2l "producer4"; s2l "producer5"; s2l "producer6"; s2l "producer7";
                   s2l "producer8"; s2l "producer9"; s2l "producer10"]
    /\ map snd (producer_descriptors root)
       = map Some [s2l "k.mp4"; s2l "j.mp4"; s2l "i.mp4"; s2l "h.mp4"; s2l "g.mp4";
                   s2l "f.mp4"; s2l "e.mp4"; s2l "d.mp4"; s2l "c.mp4"; s2l "b.mp4";
                   s2l "a.mp4"]
    /\ List.length (playlist_entries root) = 12%nat
    /\ map entry_producer (firstn 4 (playlist_entries root))
       = map Some [s2l "producer0"; s2l "producer1"; s2l "producer0"; s2l "producer2"].
Proof.
  intros c cs.
  destruct (document_structure cs) as [root [Hroot H]]. cbv zeta in H.
  destruct H as [Hlen [_ [_ [Hids [_ [_ [Hn _]]]]]]].
  exists root. split; [exact Hroot|].
  split; [rewrite Hids, Hlen; vm_compute; reflexivity|].
  split; [|split; [exact Hn|]];
    vm_compute in Hroot; injection Hroot as <-; vm_compute; reflexivity.
Defined.

(** ** The fixed format *)

Lemma digits_of_uint (d : Decimal.uint) :
  forallb is_digit (s2l (NilEmpty.string_of_uint d)) = true.
Proof. induction d; simpl; try reflexivity; exact IHd. Qed.

Lemma str_Z_digits (z : Z) : str_Z z <> [] /\ forallb is_digit (str_Z z) = true.
Proof.
  unfold str_Z. generalize (N.to_uint (Z.to_N z)). intros d. split.
  - destruct d; discriminate.
  - destruct d; try reflexivity; apply (digits_of_uint (_ d)).
Qed.

Lemma digit_char_is_digit (z : Z) : is_digit (digit_char (z mod 10)) = true.
Proof.
  unfold is_digit, digit_char.
  assert (H : (0 <= z mod 10 < 10)%Z) by (apply Z.mod_pos_bound; lia).
  apply andb_true_intro. split; apply N.leb_le; lia.
Qed.

(** A finite value is printed with exactly three decimals. *)
Lemma format_3f_three_decimals (x : float) :
  is_finite x = true -> three_decimals (format_3f x).
Proof.
  destruct x as [neg|neg| |neg m e]; simpl; try discriminate; intros _.
  - exists (sign_str neg), [48], 48, 48, 48.
    repeat split; try reflexivity; try discriminate.
    destruct neg; [now right|now left].
  - unfold fixed3. destruct (str_Z_digits (thousandths m e / 1000)) as [Hne Hdig].
    exists (sign_str neg), (str_Z (thousandths m e / 1000)).
    do 3 eexists. repeat split; try eassumption; try apply digit_char_is_digit.
    destruct neg; [now right|now left].
Qed.

(** ** What the fixed format prints *)

Lemma round_half_even_nearest (n d : Z) :
  (0 < d)%Z ->
  let q := round_half_even n d in
  (Z.abs (2 * (n - q * d)) <= d)%Z
  /\ (Z.abs (2 * (n - q * d)) = d -> Z.even q = true).
Proof.
  intros Hd. unfold round_half_even.
  pose proof (Z_div_mod n d ltac:(lia)) as H.
  destruct (Z.div_eucl n d) as [q0 r]. destruct H as [-> Hr].
  destruct (Z.compare_spec (2 * r) d) as [E|E|E]; cbv zeta.
  - destruct (Z.even q0) eqn:Ev.
    + split; [lia|auto].
    + split; [lia|]. intros _. rewrite Z.even_add, Ev. reflexivity.
  - split; lia.
  - split; lia.
Qed.

Lemma s2l_String (a : ascii) (t : string) : s2l (String a t) = N_of_ascii a :: s2l t.
Proof. reflexivity. Qed.

Lemma decimal_number_app (a b : str) :
  decimal_number (a ++ b)
  = fold_left (fun acc c => (10 * acc + (Z.of_N c - 48))%Z) b (decimal_number a).
Proof. unfold decimal_number. apply fold_left_app. Qed.

Lemma decimal_number_uint_acc (d : Decimal.uint) (acc : positive) :
  fold_left (fun a c => (10 * a + (Z.of_N c - 48))%Z)
    (s2l (NilEmpty.string_of_uint d)) (Zpos acc)
  = Zpos (Pos.of_uint_acc d acc).
Proof.
  revert acc. induction d; intros acc; cbn [NilEmpty.string_of_uint Pos.of_uint_acc];
    rewrite ?s2l_String; cbn [fold_left]; try reflexivity;
    rewrite <- IHd; f_equal; simpl (Z.of_N _); lia.
Qed.

Lemma decimal_number_uint (d : Decimal.uint) :
  decimal_number (s2l (NilEmpty.string_of_uint d)) = Z.of_N (Pos.of_uint d).
Proof.
  unfold decimal_number.
  induction d; cbn [NilEmpty.string_of_uint Pos.of_uint];
    rewrite ?s2l_String; cbn [fold_left]; try reflexivity;
    try exact IHd; apply (decimal_number_uint_acc d).
Qed.

Lemma decimal_number_str_Z (z : Z) : (0 <= z)%Z -> decimal_number (str_Z z) = z.
Proof.
  intros Hz. unfold str_Z.
  assert (E : decimal_number (s2l (NilZero.string_of_uint (N.to_uint (Z.to_N z))))
              = Z.of_N (N.of_uint (N.to_uint (Z.to_N z)))).
  { generalize (N.to_uint (Z.to_N z)). intros d. unfold NilZero.string_of_uint.
    destruct d; try apply decimal_number_uint. reflexivity. }
  rewrite E, DecimalN.Unsigned.of_to. lia.
Qed.

Lemma str_Z_no_leading_zero (z : Z) (r : str) : str_Z z = 48 :: r -> r = [].
Proof.
  unfold str_Z. generalize (Z.to_N z). intros n.
  rewrite <- (DecimalN.Unsigned.of_to n), DecimalN.Unsigned.to_of.
  generalize (N.to_uint n). intros d. unfold Decimal.unorm.
  pose proof (DecimalFacts.nzhead_nonzero d) as H.
  destruct (Decimal.nzhead d) as [|d'|d'|d'|d'|d'|d'|d'|d'|d'|d'];
    cbn [NilZero.string_of_uint NilEmpty.string_of_uint]; rewrite ?s2l_String;
    intros E; try discriminate E.
  - injection E as <-. reflexivity.
  - exfalso. now apply (H d').
Qed.

Lemma digit_char_value (z : Z) : (Z.of_N (digit_char (z mod 10)) - 48 = z mod 10)%Z.
Proof.
  unfold digit_char.
  assert (H : (0 <= z mod 10 < 10)%Z) by (apply Z.mod_pos_bound; lia). lia.
Qed.

Lemma decimal_number_fixed3 (n : Z) :
  (0 <= n)%Z ->
  decimal_number (str_Z (n / 1000)
                    ++ [digit_char (n / 100 mod 10); digit_char (n / 10 mod 10);
                        digit_char (n mod 10)]) = n.
Proof.
  intros Hn. rewrite decimal_number_app, decimal_number_str_Z by (apply Z.div_pos; lia).
  cbn [fold_left]. rewrite !digit_char_value.
  pose proof (Z.div_mod n 10) as H1.
  pose proof (Z.div_mod (n / 10) 10) as H2.
  pose proof (Z.div_mod (n / 100) 10) as H3.
  rewrite Z.div_div in H2, H3 by lia.
  change (10 * 10)%Z with 100%Z in H2. change (100 * 10)%Z with 1000%Z in H3.
  lia.
Qed.

Lemma thousandths_nearest (m : positive) (e : Z) :
  nearest_thousandth m e (thousandths m e) /\ (0 <= thousandths m e)%Z.
Proof.
  unfold nearest_thousandth, thousandths.
  destruct (Z.leb_spec 0 e) as [He|He].
  - split; [reflexivity|].
    assert (0 < 2 ^ e)%Z by (apply Z.pow_pos_nonneg; lia). lia.
  - assert (Hd : (0 < 2 ^ (- e))%Z) by (apply Z.pow_pos_nonneg; lia).
    pose proof (round_half_even_nearest (Zpos m * 1000) (2 ^ (- e)) Hd) as Hn.
    cbv zeta in Hn. split; [exact Hn|].
    destruct Hn as [Hn _].
    destruct (Z.le_gt_cases 0 (round_half_even (Z.pos m * 1000) (2 ^ (- e))))
      as [Hq|Hq]; [assumption|exfalso].
    assert (round_half_even (Z.pos m * 1000) (2 ^ (- e)) * 2 ^ (- e) <= - 2 ^ (- e))%Z
      by nia.
    lia.
Qed.

(** The fixed format prints what it is to print. *)
Lemma format_3f_rendered (x : float) : rendered_3f x (format_3f x).
Proof.
  destruct x as [neg|neg| |neg m e]; simpl.
  - now destruct neg.
  - now destruct neg.
  - reflexivity.
  - destruct (thousandths_nearest m e) as [Hnear Hpos].
    set (n := thousandths m e) in *.
    destruct (str_Z_digits (n / 1000)) as [Hne Hdig].
    exists (str_Z (n / 1000)), (digit_char (n / 100 mod 10)),
      (digit_char (n / 10 mod 10)), (digit_char (n mod 10)).
    split; [now destruct neg|]. split; [assumption|].
    split; [|split].
    + rewrite forallb_app, Hdig. cbn [forallb].
      now rewrite !digit_char_is_digit.
    + apply str_Z_no_leading_zero.
    + now rewrite decimal_number_fixed3.
Qed.

(** C2, amended to what the code does. The entry of the k-th cut carries,
    as [in], the start of the cut and, as [out], the sum of its start and
    its length, each shown in the fixed format with three decimals: the
    values are those of the cut, with nothing done to them before they are
    printed. A finite value is shown with its sign, the digits of its whole
    part, a point and exactly three decimals, which are the thousandth
    nearest to it; an infinite value is shown as inf or -inf and a value
    that is not a number as nan. *)
Theorem entry_in_out (cs : list cut) (k : nat) (c : cut) :
  nth_error cs k = Some c ->
  exists root e sin sout,
    build_document (collect cs) = Ok root
    /\ nth_error (playlist_entries root) k = Some e
    /\ entry_in e = Some sin
    /\ rendered_3f (start c) sin
    /\ entry_out e = Some sout
    /\ rendered_3f (SFadd 53 1024 (start c) (length c)) sout
    /\ (is_finite (start c) = true -> three_decimals sin)
    /\ (is_finite (SFadd 53 1024 (start c) (length c)) = true -> three_decimals sout).
Proof.
  intros Hk.
  destruct (collect_document cs) as [root [els [Hroot [Hall [_ Hes]]]]].
  destruct (Forall2_nth_error _ _ _ _ _ Hall Hk) as [el [Hel Hentry]].
  destruct (entry_element_view _ _ _ Hentry) as [pid [_ Hview]].
  exists root, (entry_view el), (format_3f (start c)),
    (format_3f (float_add (start c) (length c))).
  rewrite Hview. cbn [entry_in entry_out].
  split; [assumption|].
  split; [rewrite Hes, nth_error_map, Hel; simpl; now rewrite Hview|].
  split; [reflexivity|]. split; [apply format_3f_rendered|].
  split; [reflexivity|]. split; [apply (format_3f_rendered (float_add _ _))|].
  split; [apply format_3f_three_decimals|apply (format_3f_three_decimals (float_add _ _))].
Qed.

(** The cut with start 1.5 and length 2.25 gives in="1.500" and
    out="3.750"; the cut with start -1.5 and the same length gives
    in="-1.500" and out="0.750". *)
Lemma entry_in_out_witness :
  float_of_str (s2l "1.5") = Some (S754_finite false 6755399441055744 (-52))
  /\ float_of_str (s2l "-1.5") = Some (S754_finite true 6755399441055744 (-52))
  /\ float_of_str (s2l "2.25") = Some (S754_finite false 5066549580791808 (-51))
  /\ exists root e1 e2,
       build_document
         (collect [{| path := s2l "a.mp4";
                      start := S754_finite false 6755399441055744 (-52);
                      length := S754_finite false 5066549580791808 (-51) |};
                   {| path := s2l "a.mp4";
                      start := S754_finite true 6755399441055744 (-52);
                      length := S754_finite false 5066549580791808 (-51) |}])
       = Ok root
       /\ nth_error (playlist_entries root) 0 = Some e1
       /\ nth_error (playlist_entries root) 1 = Some e2
       /\ entry_in e1 = Some (s2l "1.500") /\ entry_out e1 = Some (s2l "3.750")
       /\ entry_in e2 = Some (s2l "-1.500") /\ entry_out e2 = Some (s2l "0.750")
       /\ rendered_3f (S754_finite true 6755399441055744 (-52)) (s2l "-1.500")
       /\ three_decimals (s2l "-1.500").
Proof.
  split; [vm_compute; reflexivity|]. split; [vm_compute; reflexivity|].
  split; [vm_compute; reflexivity|].
  set (c1 := {| path := s2l "a.mp4";
                start := S754_finite false 6755399441055744 (-52);
                length := S754_finite false 5066549580791808 (-51) |}).
  set (c2 := {| path := s2l "a.mp4";
                start := S754_finite true 6755399441055744 (-52);
                length := S754_finite false 5066549580791808 (-51) |}).
  destruct (entry_in_out [c1; c2] 0 c1 eq_refl)
    as [root [e1 [sin1 [sout1 [Hroot [He1 [Hin1 [_ [Hout1 _]]]]]]]]].
  destruct (entry_in_out [c1; c2] 1 c2 eq_refl)
    as [root' [e2 [sin2 [sout2 [Hroot' [He2 [Hin2 [Rin2 [Hout2 [_ [Tin2 _]]]]]]]]]]].
  rewrite Hroot in Hroot'. injection Hroot' as <-.
  vm_compute in Hroot. injection Hroot as <-.
  vm_compute in He1. injection He1 as <-.
  vm_compute in He2. injection He2 as <-.
  vm_compute in Hin1, Hout1, Hin2, Hout2.
  injection Hin2 as <-.
  eexists. eexists. eexists.
  split; [reflexivity|]. split; [vm_compute; reflexivity|].
  split; [vm_compute; reflexivity|].
  split; [vm_compute; reflexivity|]. split; [vm_compute; reflexivity|].
  split; [vm_compute; reflexivity|]. split; [vm_compute; reflexivity|].
  split; [exact Rin2|exact (Tin2 eq_refl)].
Defined.

(** C2, as stated, fails: the line "a, inf, 1" is accepted, the start of
    its record is infinite, and its entry has in="inf" and out="inf",
    which are not texts with three decimals; so it is not true that the
    entry of every cut shows its values with three decimals. *)
Lemma nonfinite_entry_not_three_decimals :
  parse_edl_line (s2l "a, inf, 1")
    = (Some {| path := s2l "a"; start := S754_infinity false;
               length := S754_finite false 4503599627370496 (-52) |}, [])
  /\ (exists root e,
        build_document
          (collect [{| path := s2l "a"; start := S754_infinity false;
                       length := S754_finite false 4503599627370496 (-52) |}])
        = Ok root
        /\ nth_error (playlist_entries root) 0 = Some e
        /\ entry_in e = Some (s2l "inf")
        /\ entry_out e = Some (s2l "inf"))
  /\ ~ three_decimals (s2l "inf")
  /\ ~ (forall cs k c, nth_error cs k = Some c ->
          exists root e sin sout,
            build_document (collect cs) = Ok root
            /\ nth_error (playlist_entries root) k = Some e
            /\ entry_in e = Some sin /\ entry_out e = Some sout
            /\ three_decimals sin /\ three_decimals sout).
Proof.
  assert (Hinf : ~ three_decimals (s2l "inf")).
  { intros [sg [whole [d1 [d2 [d3 [E _]]]]]].
    apply (f_equal (@List.length char)) in E. rewrite !length_app in E.
    simpl in E. lia. }
  split; [vm_compute; reflexivity|].
  split; [eexists; eexists; vm_compute; repeat split; reflexivity|].
  split; [exact Hinf|].
  intros Hall.
  destruct (Hall [{| path := s2l "a"; start := S754_infinity false;
                     length := S754_finite false 4503599627370496 (-52) |}]
              0%nat _ eq_refl)
    as [root [e [sin [sout [Hroot [He [Hin [_ [Tin _]]]]]]]]].
  vm_compute in Hroot. injection Hroot as <-.
  vm_compute in He. injection He as <-.
  vm_compute in Hin. injection Hin as <-.
  exact (Hinf Tin).
Qed.

(** ** The sign of a parsed number *)

Lemma binary_round_aux_not_negative (mx ex : Z) (lx : location) :
  float_ltb (binary_round_aux prec emax false mx ex lx) zero = false.
Proof.
  unfold binary_round_aux.
  destruct (shr_fexp prec emax mx ex lx) as [mrs' e'].
  destruct (shr_fexp prec emax _ e' loc_Exact) as [mrs'' e''].
  destruct (shr_m mrs''); [reflexivity| |reflexivity].
  destruct (Z.leb e'' (emax - prec)); reflexivity.
Qed.

Lemma float_of_decimal_not_negative (digits : N) (exp10 : Z) :
  float_ltb (float_of_decimal false digits exp10) zero = false.
Proof.
  unfold float_of_decimal. destruct digits as [|m]; [reflexivity|]. cbv zeta.
  destruct (Z.div_eucl _ _) as [q r]. apply binary_round_aux_not_negative.
Qed.

Lemma read_sign_minus (s r : str) : read_sign s = (true, r) -> s = 45 :: r.
Proof.
  destruct s as [|c s']; unfold read_sign; [discriminate|].
  destruct (N.eqb_spec c 45) as [->|_].
  - intros H. now injection H as ->.
  - destruct (c =? 43); discriminate.
Qed.

Lemma parse_decimal_negative (s : str) (x : float) :
  parse_decimal s = Some x -> float_ltb x zero = true -> exists r, s = 45 :: r.
Proof.
  unfold parse_decimal. destruct (read_sign s) as [neg r0] eqn:Es.
  destruct (span_digits r0) as [ip r1].
  destruct (match r1 with [] => _ | _ :: _ => _ end) as [fp r2].
  destruct (ip ++ fp) as [|d ds]; [discriminate|].
  destruct (parse_exponent r2) as [e|]; [|discriminate].
  intros H Hneg. injection H as <-. destruct neg.
  - exists r0. now apply read_sign_minus.
  - now rewrite float_of_decimal_not_negative in Hneg.
Qed.

Lemma parse_inf_or_nan_negative (s : str) (x : float) :
  parse_inf_or_nan s = Some x -> float_ltb x zero = true -> exists r, s = 45 :: r.
Proof.
  unfold parse_inf_or_nan. destruct (read_sign s) as [neg r0] eqn:Es.
  destruct (_ || _).
  - intros H Hneg. injection H as <-. destruct neg; [|discriminate].
    exists r0. now apply read_sign_minus.
  - destruct (str_eqb _ _); [|discriminate]. intros H Hneg. injection H as <-. discriminate.
Qed.

Lemma drop_underscores_incl (s t : str) (prev c : char) :
  drop_underscores prev s = Some t -> In c t -> In c s.
Proof.
  revert prev t. induction s as [|a s IH]; intros prev t; simpl.
  - destruct (prev =? 95); [discriminate|]. intros H. now injection H as <-.
  - destruct (a =? 95).
    + destruct (is_digit prev); [|discriminate]. intros H Hc. right. eapply IH; eassumption.
    + destruct (_ && _); [discriminate|].
      destruct (drop_underscores a s) as [r|] eqn:E; [|discriminate].
      intros H. injection H as <-. intros [Hc|Hc]; [now left|].
      right. eapply IH; eassumption.
Qed.

Lemma to_ascii_minus (c : char) : to_ascii c = 45 -> c = 45.
Proof.
  unfold to_ascii. destruct (c <? 127); [tauto|].
  destruct (is_space c); [discriminate|].
  destruct (to_decimal c); [lia|discriminate].
Qed.

(** A text that converts to a negative number holds a minus sign. *)
Lemma float_of_str_negative (s : str) (x : float) :
  float_of_str s = Some x -> float_ltb x zero = true -> In minus s.
Proof.
  unfold float_of_str.
  destruct (drop_underscores 0 (map to_ascii s)) as [t|] eqn:Et; [|discriminate].
  intros H Hneg.
  assert (Hr : exists r, strip_by is_c_space t = 45 :: r).
  { destruct (parse_decimal (strip_by is_c_space t)) as [y|] eqn:Ed.
    - injection H as <-. eapply parse_decimal_negative; eassumption.
    - eapply parse_inf_or_nan_negative; eassumption. }
  destruct Hr as [r Hr].
  assert (Hin : In 45 (map to_ascii s)).
  { eapply drop_underscores_incl; [eassumption|].
    apply (strip_by_incl is_c_space). rewrite Hr. now left. }
  apply in_map_iff in Hin. destruct Hin as [c [Hc Hin]].
  apply to_ascii_minus in Hc. now subst.
Qed.

(** C9, amended to what the code does. A record made from a line has as start the
    number that the start field of the line converts to, whatever its
    sign: no range is checked. The start is negative only when the field
    holds a minus sign. *)
Theorem parsed_start_field (line : str) (c : cut) (out : list str) :
  parse_edl_line line = (Some c, out) ->
  float_of_str (start_field (strip line)) = Some (start c)
  /\ (float_ltb (start c) zero = true -> In minus (start_field (strip line))).
Proof.
  intros H.
  assert (Hf : float_of_str (start_field (strip line)) = Some (start c)).
  { revert H. unfold parse_edl_line.
    destruct (skipped (strip line)); [discriminate|].
    unfold parse_fields, start_field.
    destruct (negb (List.length (rsplit_char comma 2 (strip line)) =? 3)%nat).
    - cbv zeta. destruct (_ <? 3)%nat; [discriminate|]. unfold to_float.
      destruct (float_of_str (nth (List.length (split_ws (strip line)) - 2)
                                  (split_ws (strip line)) [])) as [s|];
        [|discriminate]. simpl.
      destruct (float_of_str _) as [l|]; [|discriminate]. simpl.
      intros E. now inversion E.
    - cbv zeta. unfold to_float.
      destruct (float_of_str (nth 1 (rsplit_char comma 2 (strip line)) [])) as [s|];
        [|discriminate]. simpl.
      destruct (float_of_str _) as [l|]; [|discriminate]. simpl.
      intros E. now inversion E. }
  split; [assumption|]. intros Hneg. eapply float_of_str_negative; eassumption.
Qed.

Lemma parsed_start_field_witness :
  float_of_str (start_field (strip (s2l "a, -1.0, 2.5")))
    = Some (S754_finite true 4503599627370496 (-52))
  /\ In minus (start_field (strip (s2l "a, -1.0, 2.5"))).
Proof.
  destruct (parsed_start_field (s2l "a, -1.0, 2.5")
              {| path := s2l "a"; start := S754_finite true 4503599627370496 (-52);
                 length := S754_finite false 5629499534213120 (-51) |} [])
    as [H1 H2]; [vm_compute; reflexivity|].
  split; [exact H1|]. apply H2. vm_compute. reflexivity.
Defined.

(** C9, as stated, fails: the line "a, -1.0, 2.5" is accepted, and the start
    of its record is -1.0, which is below zero; so it is not true that the
    start of every record is at least zero. *)
Lemma negative_start_accepted :
  parse_edl_line (s2l "a, -1.0, 2.5")
    = (Some {| path := s2l "a"; start := S754_finite true 4503599627370496 (-52);
               length := S754_finite false 5629499534213120 (-51) |}, [])
  /\ float_leb zero (S754_finite true 4503599627370496 (-52)) = false
  /\ float_ltb (S754_finite true 4503599627370496 (-52)) zero = true
  /\ ~ (forall line c out, parse_edl_line line = (Some c, out) ->
                           float_leb zero (start c) = true).
Proof.
  assert (H : parse_edl_line (s2l "a, -1.0, 2.5")
              = (Some {| path := s2l "a"; start := S754_finite true 4503599627370496 (-52);
                         length := S754_finite false 5629499534213120 (-51) |}, []))
    by (vm_compute; reflexivity).
  repeat split; try assumption; try reflexivity.
  intros Hall. specialize (Hall _ _ _ H). discriminate.
Qed.

(** ** Runs of the builder *)

Lemma accepted_nil_iff (lines : list str) :
  accepted lines = [] <-> forall line, In line lines -> fst (parse_edl_line line) = None.
Proof.
  unfold accepted. induction lines as [|l lines IH]; simpl.
  - split; [intros _ line []|reflexivity].
  - split.
    + intros H line [<-|Hin].
      * destruct (fst (parse_edl_line l)); [discriminate|reflexivity].
      * apply app_eq_nil in H. now apply IH.
    + intros H. rewrite (H l (or_introl eq_refl)). simpl.
      apply IH. intros line Hin. apply H. now right.
Qed.

Lemma collect_cuts (cs : list cut) : cuts (collect cs) = cs.
Proof. now destruct (collect_inv cs). Qed.

(** C7. When the input file is missing, or when every line of it is skipped
    or invalid, the run writes no file: it prints its error message last
    and returns. *)
Theorem fatal_run_writes_nothing (pretty_xml : element -> option str) (fs : filesystem)
      (edl_path output_path : str) :
  (exists lines, read_file fs edl_path = (lines, Some FileNotFoundError))
  \/ (exists lines, read_file fs edl_path = (lines, None)
        /\ forall line, In line lines -> fst (parse_edl_line line) = None) ->
  let r := create_kdenlive_project pretty_xml fs edl_path output_path in
  written r = None
  /\ ending r = Returned
  /\ (snd (read_file fs edl_path) = Some FileNotFoundError ->
      last (stdout r) [] = s2l "Error: EDL file not found.")
  /\ (snd (read_file fs edl_path) = None ->
      last (stdout r) [] = s2l "Error: No valid cuts found in EDL.").
Proof.
  intros [[lines Hmiss]|[lines [Hread Hnone]]]; cbv zeta; unfold create_kdenlive_project.
  - rewrite Hmiss. destruct (scan lines _) as [st out]. cbn [is_FileNotFoundError].
    split; [reflexivity|]. split; [reflexivity|]. split; [|discriminate].
    intros _. unfold stdout. apply last_last.
  - apply accepted_nil_iff in Hnone.
    rewrite Hread. cbv iota beta. rewrite scan_collect, Hnone.
    simpl cuts. cbv iota beta.
    split; [reflexivity|]. split; [reflexivity|]. split; [discriminate|].
    intros _. unfold stdout. apply last_last.
Qed.

Lemma fatal_run_writes_nothing_witness :
  let fs := {| read_file := fun p => if str_eqb p (s2l "cuts.edl")
                                      then ([s2l "# mpv EDL v0"; s2l ""; s2l "clip.mp4"; s2l "a, b, c"],
                                            None)
                                      else ([], Some FileNotFoundError);
               write_file := fun _ _ => Written |} in
  let r := create_kdenlive_project (fun _ => Some []) fs (s2l "cuts.edl") (s2l "out.kdenlive") in
  let r' := create_kdenlive_project (fun _ => Some []) fs (s2l "none.edl") (s2l "out.kdenlive") in
  (written r = None /\ last (stdout r) [] = s2l "Error: No valid cuts found in EDL.")
  /\ (written r' = None /\ last (stdout r') [] = s2l "Error: EDL file not found.").
Proof.
  intros fs r r'. split.
  - destruct (fatal_run_writes_nothing (fun _ => Some []) fs (s2l "cuts.edl") (s2l "out.kdenlive"))
      as [H1 [_ [_ H2]]].
    + right. eexists. split; [reflexivity|].
      intros line [<-|[<-|[<-|[<-|[]]]]]; vm_compute; reflexivity.
    + split; [exact H1|]. apply H2. reflexivity.
  - destruct (fatal_run_writes_nothing (fun _ => Some []) fs (s2l "none.edl") (s2l "out.kdenlive"))
      as [H1 [_ [H2 _]]].
    + left. eexists. reflexivity.
    + split; [exact H1|]. apply H2. reflexivity.
Defined.

(** ** The empty path *)

Lemma in_accepted (lines : list str) (line : str) (c : cut) :
  In line lines -> fst (parse_edl_line line) = Some c -> In c (accepted lines).
Proof.
  intros Hin Hc. unfold accepted. apply in_flat_map. exists line.
  split; [assumption|]. rewrite Hc. now left.
Qed.

Lemma nodup_values_key (d : dict) (k k' v : str) :
  NoDup (map snd d) -> In (k, v) d -> In (k', v) d -> k = k'.
Proof.
  induction d as [|[a b] d IH]; simpl; [tauto|]. intros Hnd.
  apply NoDup_cons_iff in Hnd. destruct Hnd as [Hnot Hnd].
  intros [E|Hin] [E'|Hin'].
  - congruence.
  - exfalso. apply Hnot. injection E as _ ->.
    change v with (snd (k', v)). now apply in_map.
  - exfalso. apply Hnot. injection E' as _ ->.
    change v with (snd (k, v)). now apply in_map.
  - now apply IH.
Qed.

(** C10. A line whose first comma-separated part is empty or holds nothing
    but whitespace and whose last two parts are numbers gives a record with
    the empty path. In any file that holds such a line, the empty path is
    a key of the registry, with an identifier producerK that no other path
    has, and the document has the producer descriptor of that identifier
    for it. *)
Theorem empty_path_accepted (u f1 f2 : str) (s l : float) :
  forallb is_space u = true ->
  ~ In comma f1 -> ~ In comma f2 ->
  float_of_str f1 = Some s -> float_of_str f2 = Some l ->
  let line := u ++ comma :: f1 ++ comma :: f2 in
  parse_edl_line line = (Some {| path := []; start := s; length := l |}, [])
  /\ forall lines out, In line lines ->
       let st := fst (scan lines out) in
       exists k root,
         dict_get [] (unique_paths st) = Some (s2l "producer" ++ str_nat k)
         /\ (forall p pid, dict_get p (unique_paths st) = Some pid ->
               p <> [] -> pid <> s2l "producer" ++ str_nat k)
         /\ build_document st = Ok root
         /\ In (Some (s2l "producer" ++ str_nat k), Some []) (producer_descriptors root).
Proof.
  intros Hu H1 H2 Hs Hl line.
  assert (Hu0 : strip u = []).
  { pose proof (strip_by_around is_space u [] [] Hu eq_refl) as E.
    rewrite app_nil_r in E. exact E. }
  assert (Hparse : parse_edl_line line
                   = (Some {| path := []; start := s; length := l |}, [])).
  { unfold line. rewrite (parse_three_raw_parts _ u f1 f2 s l).
    - now rewrite Hu0.
    - now apply rsplit_char_form.
    - rewrite Hu0. discriminate.
    - assumption.
    - assumption. }
  split; [exact Hparse|].
  intros lines out Hin. cbv zeta. rewrite scan_collect. simpl fst.
  set (cs := accepted lines).
  assert (Hc : In {| path := []; start := s; length := l |} cs).
  { apply (in_accepted lines line); [assumption|]. now rewrite Hparse. }
  destruct (collect_inv cs) as [_ _ Hids Hnd Hkeys _].
  destruct (collect_document cs) as [root [els [Hroot [_ [Hps _]]]]].
  assert (Hkey : In [] (map fst (unique_paths (collect cs)))).
  { apply Hkeys. apply in_map_iff. eexists. split; [|exact Hc]. reflexivity. }
  destruct (dict_get_key _ _ Hkey) as [v Hv].
  assert (Hvin : In ([], v) (unique_paths (collect cs))) by now apply dict_get_in.
  assert (Hk : exists k, v = producer_id k).
  { assert (Hv' : In v (map snd (unique_paths (collect cs)))).
    { change v with (snd (@nil char, v)). now apply in_map. }
    rewrite Hids in Hv'. apply in_map_iff in Hv'. destruct Hv' as [k [E _]]. now exists k. }
  destruct Hk as [k ->]. exists k, root.
  change (s2l "producer" ++ str_nat k) with (producer_id k).
  split; [exact Hv|]. split; [|split; [exact Hroot|]].
  - intros p pid Hp Hne E. subst pid. apply dict_get_in in Hp. apply Hne.
    apply (nodup_values_key (unique_paths (collect cs)) p [] (producer_id k));
      try assumption.
    rewrite Hids. apply Injective_map_NoDup; [|apply seq_NoDup].
    intros n m. apply producer_id_inj.
  - rewrite Hps.
    change (In ((fun item : str * str => (Some (snd item), Some (fst item)))
                  ([], producer_id k))
               (map (fun item : str * str => (Some (snd item), Some (fst item)))
                  (unique_paths (collect cs)))).
    now apply in_map.
Qed.

(** A line whose first part is a space, a tab and a space, after a line for
    another path: the path is empty, and the empty path is the second key
    of the registry, with the identifier producer1. *)
Lemma empty_path_accepted_witness :
  let line := 32 :: 9 :: s2l " , 1.0, 2.5" in
  parse_edl_line line
    = (Some {| path := []; start := S754_finite false 4503599627370496 (-52);
               length := S754_finite false 5629499534213120 (-51) |}, [])
  /\ exists root,
       let st := fst (scan [s2l "a.mp4, 0, 1"; line] []) in
       dict_get [] (unique_paths st) = Some (s2l "producer1")
       /\ build_document st = Ok root
       /\ In (Some (s2l "producer1"), Some []) (producer_descriptors root).
Proof.
  intros line.
  destruct (empty_path_accepted [32; 9; 32] (s2l " 1.0") (s2l " 2.5")
              (S754_finite false 4503599627370496 (-52))
              (S754_finite false 5629499534213120 (-51)))
    as [H1 H2].
  - reflexivity.
  - simpl. intuition discriminate.
  - simpl. intuition discriminate.
  - vm_compute. reflexivity.
  - vm_compute. reflexivity.
  - split; [exact H1|].
    destruct (H2 [s2l "a.mp4, 0, 1"; line] [] (or_intror (or_introl eq_refl)))
      as [k [root [Hk [_ [Hroot Hin]]]]].
    assert (E : dict_get [] (unique_paths (fst (scan [s2l "a.mp4, 0, 1"; line] [])))
                = Some (s2l "producer1")) by (vm_compute; reflexivity).
    rewrite E in Hk. injection Hk as Hk. rewrite <- Hk in Hin.
    exists root. cbv zeta. split; [exact E|]. split; assumption.
Defined.

(** * Further properties of the parser *)

(** X1. A line that holds nothing but whitespace, or whose first character
    after leading whitespace is [#], gives no record and prints nothing,
    whatever follows the [#]. *)
Theorem parse_blank_or_comment (line : str) :
  forallb is_space line = true
  \/ (exists ws rest, line = ws ++ hash :: rest /\ forallb is_space ws = true) ->
  parse_edl_line line = (None, []).
Proof.
  intros H. apply parse_skipped.
  destruct H as [Hblank|[ws [rest [-> Hws]]]]; unfold strip, strip_by.
  - rewrite <- (app_nil_r line), (lstrip_by_spaces_app _ _ _ Hblank). reflexivity.
  - rewrite (lstrip_by_spaces_app _ _ _ Hws). simpl lstrip_by.
    change (is_space hash) with false. cbv iota.
    rewrite rstrip_by_cons by reflexivity. reflexivity.
Qed.

Lemma parse_blank_or_comment_witness :
  parse_edl_line (s2l "   ") = (None, [])
  /\ parse_edl_line (s2l "  # clip.mp4, 1.0, 2.5") = (None, []).
Proof.
  split; apply parse_blank_or_comment.
  - left. vm_compute. reflexivity.
  - right. exists (s2l "  "), (s2l " clip.mp4, 1.0, 2.5"). split; vm_compute; reflexivity.
Defined.

(** X2. Whitespace before and after a line, such as the newline that ends
    a line read from a file, changes nothing of what the parser returns
    and prints. *)
Theorem parse_surrounding_whitespace (t line t' : str) :
  forallb is_space t = true -> forallb is_space t' = true ->
  parse_edl_line (t ++ line ++ t') = parse_edl_line line.
Proof.
  intros Ht Ht'. unfold parse_edl_line, strip.
  now rewrite (strip_by_around is_space t line t' Ht Ht').
Qed.

Lemma parse_surrounding_whitespace_witness :
  parse_edl_line (s2l "  " ++ s2l "a.mp4, 1, 2" ++ [10]) = parse_edl_line (s2l "a.mp4, 1, 2").
Proof.
  apply parse_surrounding_whitespace; vm_compute; reflexivity.
Defined.

(** The three ways a call of the parser ends. *)
Lemma parse_cases (line : str) :
  (exists c, parse_edl_line line = (Some c, []))
  \/ parse_edl_line line = (None, [])
  \/ parse_edl_line line = (None, [warning (strip line)]).
Proof.
  unfold parse_edl_line. destruct (skipped (strip line)); [now right; left|].
  destruct (parse_fields (strip line)) as [[c|]|e].
  - left. now exists c.
  - right. now left.
  - right. now right.
Qed.

(** X3. A call of the parser prints at most one line, and prints only when
    it returns no record: the line printed is the warning that names the
    stripped text, and it is printed only for a line that has three comma
    parts or at least three tokens. *)
Theorem parse_warning_only_without_record (line : str) (r : option cut) (out : list str) :
  parse_edl_line line = (r, out) ->
  out = []
  \/ (r = None /\ out = [warning (strip line)]
      /\ (List.length (rsplit_char comma 2 line) = 3
          \/ 3 <= List.length (split_ws line))%nat).
Proof.
  unfold parse_edl_line. destruct (skipped (strip line)).
  { intros H. injection H as _ <-. now left. }
  destruct (parse_fields (strip line)) as [v|e] eqn:E.
  { intros H. injection H as _ <-. now left. }
  intros H. injection H as <- <-. right. repeat split.
  rewrite <- rsplit_char_length_strip, <- split_ws_strip.
  destruct (Nat.eq_dec (List.length (rsplit_char comma 2 (strip line))) 3) as [H3|H3];
    [now left|right].
  rewrite (parse_fields_fallback _ H3) in E. cbv zeta in E.
  destruct (Nat.ltb_spec (List.length (split_ws (strip line))) 3) as [Hlt|Hge];
    [discriminate|assumption].
Qed.

Lemma parse_warning_only_without_record_witness :
  [s2l "[Warn] Skipping invalid line format: a, x, 2"] = []
  \/ (@None cut = None
      /\ [s2l "[Warn] Skipping invalid line format: a, x, 2"] = [warning (strip (s2l "a, x, 2 "))]
      /\ (List.length (rsplit_char comma 2 (s2l "a, x, 2 ")) = 3
          \/ 3 <= List.length (split_ws (s2l "a, x, 2 ")))%nat).
Proof.
  apply (parse_warning_only_without_record (s2l "a, x, 2 ")). vm_compute. reflexivity.
Defined.

Lemma flush_tokens (w : str) :
  (forall c, In c w -> is_space c = false) -> Forall is_token (flush w).
Proof.
  intros Hw. destruct w as [|a w]; simpl; [constructor|].
  constructor; [|constructor]. split.
  - intros H. apply (f_equal (@List.length char)) in H.
    rewrite length_app in H. simpl in H. lia.
  - intros c Hc. apply Hw. apply in_app_or in Hc.
    destruct Hc as [Hc|[<-|[]]]; [right; now apply in_rev|now left].
Qed.

Lemma split_from_tokens (w s : str) :
  (forall c, In c w -> is_space c = false) -> Forall is_token (split_from w s).
Proof.
  revert w. induction s as [|a s IH]; intros w Hw; simpl.
  - now apply flush_tokens.
  - destruct (is_space a) eqn:Ea.
    + apply Forall_app. split; [now apply flush_tokens|]. apply IH. intros c [].
    + apply IH. intros c [<-|Hc]; [assumption|now apply Hw].
Qed.

(** The parts that [split] gives are tokens. *)
Lemma split_ws_tokens (s : str) : Forall is_token (split_ws s).
Proof. apply split_from_tokens. intros c []. Qed.

Lemma join_head (sep t : str) (ts : list str) (c : char) (r : str) :
  t <> [] -> join sep (t :: ts) = c :: r -> exists r', t = c :: r'.
Proof.
  intros Ht. destruct t as [|a t]; [congruence|]. destruct ts; simpl; intros H.
  - injection H as <- <-. now exists t.
  - injection H as <- _. now exists t.
Qed.

Lemma join_last (sep : str) (ts : list str) (t : str) :
  exists pre, join sep (ts ++ [t]) = pre ++ t.
Proof.
  induction ts as [|a ts [pre IH]]; simpl.
  - now exists [].
  - destruct (ts ++ [t]) as [|b l] eqn:E.
    + destruct ts; discriminate.
    + exists (a ++ sep ++ pre). rewrite IH. now rewrite <- !app_assoc.
Qed.

(** The text joined from tokens begins and ends as a token does. *)
Lemma join_tokens_ends (sep : str) (ts : list str) :
  ts <> [] -> Forall is_token ts ->
  join sep ts <> []
  /\ (forall c r, join sep ts = c :: r -> is_space c = false)
  /\ (forall c r, join sep ts = r ++ [c] -> is_space c = false).
Proof.
  intros Hne Hall. split; [|split].
  - destruct ts as [|t ts]; [congruence|]. inversion Hall as [|? ? [Ht _] _]; subst.
    destruct t as [|a t]; [congruence|]. destruct ts; discriminate.
  - intros c r H. destruct ts as [|t ts]; [congruence|].
    inversion Hall as [|? ? [Ht Hsp] _]; subst.
    destruct (join_head _ _ _ _ _ Ht H) as [r' ->]. apply Hsp. now left.
  - intros c r H. destruct (exists_last Hne) as [ts' [t ->]].
    apply Forall_app in Hall. destruct Hall as [_ Hall].
    inversion Hall as [|? ? [Ht Hsp] _]; subst.
    destruct (join_last sep ts' t) as [pre E]. rewrite E in H.
    destruct (exists_last Ht) as [t' [c' ->]].
    rewrite app_assoc in H. apply app_inj_tail in H. destruct H as [_ ->].
    apply Hsp. apply in_or_app. right. now left.
Qed.

Lemma Forall_firstn {A : Type} (P : A -> Prop) (n : nat) (l : list A) :
  Forall P l -> Forall P (firstn n l).
Proof.
  intros H. rewrite Forall_forall in *. intros x Hx. apply H.
  rewrite <- (firstn_skipn n l). apply in_or_app. now left.
Qed.

(** X4. The path of a record never begins or ends with a whitespace
    character; and the path of a record read in the fallback format (the
    line has fewer than two commas) is not empty. *)
Theorem parsed_path_trimmed (line : str) (c : cut) (out : list str) :
  parse_edl_line line = (Some c, out) ->
  (forall x r, path c = x :: r -> is_space x = false)
  /\ (forall x r, path c = r ++ [x] -> is_space x = false)
  /\ (List.length (rsplit_char comma 2 line) <> 3%nat -> path c <> []).
Proof.
  unfold parse_edl_line. destruct (skipped (strip line)); [discriminate|].
  rewrite <- rsplit_char_length_strip.
  unfold parse_fields, to_float.
  destruct (Nat.eqb_spec (List.length (rsplit_char comma 2 (strip line))) 3) as [H3|H3];
    cbv zeta; simpl negb; cbv iota.
  - destruct (float_of_str (nth 1 (rsplit_char comma 2 (strip line)) [])) as [s|];
      [|discriminate]. simpl.
    destruct (float_of_str _) as [l|]; [|discriminate]. simpl.
    intros H. injection H as <- _. simpl path.
    destruct (strip_spec (nth 0 (rsplit_char comma 2 (strip line)) []))
      as [_ [_ [_ [_ [_ [Hhd Htl]]]]]].
    split; [exact Hhd|split; [exact Htl|congruence]].
  - destruct (Nat.ltb_spec (List.length (split_ws (strip line))) 3) as [Hlt|Hge];
      [discriminate|].
    destruct (float_of_str (nth (List.length (split_ws (strip line)) - 2)
                                (split_ws (strip line)) [])) as [s|];
      [|discriminate]. simpl.
    destruct (float_of_str _) as [l|]; [|discriminate]. simpl.
    intros H. injection H as <- _. simpl path.
    destruct (join_tokens_ends [space]
                (firstn (List.length (split_ws (strip line)) - 2) (split_ws (strip line))))
      as [Hne [Hhd Htl]].
    + intros E. apply (f_equal (@List.length str)) in E.
      rewrite length_firstn in E. simpl in E. lia.
    + apply Forall_firstn, split_ws_tokens.
    + split; [exact Hhd|split; [exact Htl|intros _; exact Hne]].
Qed.

Lemma parsed_path_trimmed_witness :
  (forall x r, s2l "my clip.mp4" = x :: r -> is_space x = false)
  /\ (forall x r, s2l "my clip.mp4" = r ++ [x] -> is_space x = false)
  /\ (List.length (rsplit_char comma 2 (s2l " my   clip.mp4  1.0 2.5 ")) <> 3%nat ->
      s2l "my clip.mp4" <> []).
Proof.
  apply (parsed_path_trimmed (s2l " my   clip.mp4  1.0 2.5 ")
           {| path := s2l "my clip.mp4";
              start := S754_finite false 4503599627370496 (-52);
              length := S754_finite false 5629499534213120 (-51) |} []).
  vm_compute. reflexivity.
Defined.

(** * Further properties of the builder *)

Lemma registry_size (cs : list cut) :
  List.length (unique_paths (collect cs))
  = List.length (nodup str_eq_dec (map path cs)).
Proof.
  destruct (collect_inv cs) as [_ _ _ Hnd Hkeys _].
  rewrite <- (length_map fst). apply Permutation_length.
  apply NoDup_Permutation; [assumption|apply NoDup_nodup|].
  intros p. now rewrite nodup_In.
Qed.

Lemma add_cut_registry_grows (st : scan_state) (c : cut) :
  exists more, unique_paths (add_cut st c) = unique_paths st ++ more.
Proof.
  unfold add_cut. destruct (negb _); simpl.
  - eexists. reflexivity.
  - exists []. now rewrite app_nil_r.
Qed.

Lemma fold_add_cut_registry_grows (cs : list cut) (st : scan_state) :
  exists more, unique_paths (fold_left add_cut cs st) = unique_paths st ++ more.
Proof.
  revert st. induction cs as [|c cs IH]; intros st; simpl.
  - exists []. now rewrite app_nil_r.
  - destruct (IH (add_cut st c)) as [more Hmore].
    destruct (add_cut_registry_grows st c) as [more' Hmore'].
    exists (more' ++ more). now rewrite Hmore, Hmore', app_assoc.
Qed.

Lemma accepted_app (lines lines' : list str) :
  accepted (lines ++ lines') = accepted lines ++ accepted lines'.
Proof. unfold accepted. apply flat_map_app. Qed.

(** X5. Lines added at the end of a file leave the producers of the lines
    before them as they are: the document of the longer file has the
    producer descriptors of the shorter one, with the same identifiers, and
    then those of the paths that are new. *)
Theorem producers_stable (lines lines' : list str) :
  exists root root' more,
    build_document (collect (accepted lines)) = Ok root
    /\ build_document (collect (accepted (lines ++ lines'))) = Ok root'
    /\ producer_descriptors root' = producer_descriptors root ++ more
    /\ (forall p, In (Some p) (map snd more) -> ~ In p (map path (accepted lines))).
Proof.
  destruct (collect_document (accepted lines)) as [root [_ [Hroot [_ [Hps _]]]]].
  destruct (collect_document (accepted (lines ++ lines'))) as [root' [_ [Hroot' [_ [Hps' _]]]]].
  rewrite accepted_app in *.
  destruct (fold_add_cut_registry_grows (accepted lines') (collect (accepted lines)))
    as [more Hmore].
  assert (Hreg : unique_paths (collect (accepted lines ++ accepted lines'))
                 = unique_paths (collect (accepted lines)) ++ more).
  { unfold collect at 1. rewrite fold_left_app. exact Hmore. }
  exists root, root', (map (fun item => (Some (snd item), Some (fst item))) more).
  repeat split; try assumption.
  - now rewrite Hps', Hps, Hreg, map_app.
  - intros p Hp Hin.
    destruct (collect_inv (accepted lines)) as [_ _ _ _ Hkeys _].
    destruct (collect_inv (accepted lines ++ accepted lines')) as [_ _ _ Hnd _ _].
    rewrite Hreg, map_app in Hnd.
    rewrite map_map in Hp. simpl in Hp. apply in_map_iff in Hp.
    destruct Hp as [[k v] [E Hkv]]. simpl in E. injection E as ->.
    apply Hkeys in Hin.
    revert Hnd. generalize (map fst (unique_paths (collect (accepted lines)))) Hin.
    intros l Hl Hnd. induction l as [|a l IH]; [contradiction|].
    simpl in Hnd. apply NoDup_cons_iff in Hnd. destruct Hnd as [Hna Hnd].
    destruct Hl as [->|Hl]; [|now apply IH].
    apply Hna. apply in_or_app. right.
    change p with (fst (p, v)). now apply in_map.
Qed.

(** X6. Two playlist entries refer to the same producer exactly when their
    cuts have the same path. *)
Theorem same_producer_iff_same_path (cs : list cut) (root : element) (i j : nat)
    (ci cj : cut) (ei ej : entry) :
  build_document (collect cs) = Ok root ->
  nth_error cs i = Some ci -> nth_error cs j = Some cj ->
  nth_error (playlist_entries root) i = Some ei ->
  nth_error (playlist_entries root) j = Some ej ->
  (entry_producer ei = entry_producer ej <-> path ci = path cj).
Proof.
  intros Hroot Hci Hcj Hei Hej.
  destruct (collect_document cs) as [root0 [els [Hroot0 [Hall [_ Hes]]]]].
  rewrite Hroot in Hroot0. injection Hroot0 as <-.
  destruct (Forall2_nth_error _ _ _ _ _ Hall Hci) as [eli [Heli Hi]].
  destruct (Forall2_nth_error _ _ _ _ _ Hall Hcj) as [elj [Helj Hj]].
  destruct (entry_element_view _ _ _ Hi) as [pi [Hpi Hvi]].
  destruct (entry_element_view _ _ _ Hj) as [pj [Hpj Hvj]].
  rewrite Hes, nth_error_map, Heli in Hei. injection Hei as <-.
  rewrite Hes, nth_error_map, Helj in Hej. injection Hej as <-.
  rewrite Hvi, Hvj. simpl. split.
  - intros E. injection E as ->.
    apply dict_get_in in Hpi, Hpj.
    apply (nodup_values_key (unique_paths (collect cs)) _ _ pj); try assumption.
    destruct (collect_inv cs) as [_ _ Hids _ _ _]. rewrite Hids.
    apply Injective_map_NoDup; [|apply seq_NoDup].
    intros n m. apply producer_id_inj.
  - intros E. rewrite E in Hpi. congruence.
Qed.

Lemma same_producer_iff_same_path_witness :
  let c (p : str) := {| path := p; start := zero; length := zero |} in
  exists root e0 e1 e2,
    build_document (collect [c (s2l "a"); c (s2l "b"); c (s2l "a")]) = Ok root
    /\ playlist_entries root = [e0; e1; e2]
    /\ (entry_producer e0 = entry_producer e2 <-> s2l "a" = s2l "a")
    /\ (entry_producer e0 = entry_producer e1 <-> s2l "a" = s2l "b").
Proof.
  intros c.
  destruct (build_document (collect [c (s2l "a"); c (s2l "b"); c (s2l "a")])) as [root|] eqn:E;
    [|vm_compute in E; discriminate].
  assert (Hes : exists e0 e1 e2, playlist_entries root = [e0; e1; e2]).
  { vm_compute in E. injection E as <-. do 3 eexists. vm_compute. reflexivity. }
  destruct Hes as [e0 [e1 [e2 Hes]]]. exists root, e0, e1, e2.
  split; [reflexivity|]. split; [exact Hes|]. split.
  - apply (same_producer_iff_same_path [c (s2l "a"); c (s2l "b"); c (s2l "a")] root 0 2 (c (s2l "a")) (c (s2l "a")));
      try assumption; try reflexivity; rewrite Hes; reflexivity.
  - apply (same_producer_iff_same_path [c (s2l "a"); c (s2l "b"); c (s2l "a")] root 0 1 (c (s2l "a")) (c (s2l "b")));
      try assumption; try reflexivity; rewrite Hes; reflexivity.
Defined.

Lemma mapM_forall2 {A B : Type} (f : A -> result B) (l : list A) (bs : list B) :
  mapM f l = Ok bs -> Forall2 (fun a b => f a = Ok b) l bs.
Proof.
  revert bs. induction l as [|a l IH]; simpl; intros bs H.
  - injection H as <-. constructor.
  - destruct (f a) as [b|] eqn:Eb; [|discriminate]. simpl in H.
    destruct (mapM f l) as [bs'|]; [|discriminate]. simpl in H.
    injection H as <-. constructor; [assumption|now apply IH].
Qed.

(** X7. The document of every sequence of cuts is the [mlt] root with its
    three attributes and, as children in this order: one [producer] per
    registry item, holding its identifier and a [resource] property with
    the path; the one [playlist], named playlist0, holding one childless
    [entry] per cut with the attributes producer, in, out in this order;
    and the one [tractor], named as the root's producer attribute says,
    whose one track refers to playlist0. *)
Theorem document_skeleton (cs : list cut) :
  exists entries,
    build_document (collect cs)
    = Ok (Element (s2l "mlt")
            [(s2l "version", s2l "7.0"); (s2l "title", s2l "EDL Import");
             (s2l "producer", s2l "maintractor")] None
            (map (fun item =>
                    Element (s2l "producer") [(s2l "id", snd item)] None
                      [Element (s2l "property") [(s2l "name", s2l "resource")]
                         (Some (fst item)) []])
                 (unique_paths (collect cs))
             ++ [Element (s2l "playlist") [(s2l "id", s2l "playlist0")] None entries;
                 Element (s2l "tractor") [(s2l "id", s2l "maintractor")] None
                   [Element (s2l "track") [(s2l "producer", s2l "playlist0")] None []]]))
    /\ List.length (unique_paths (collect cs))
       = List.length (nodup str_eq_dec (map path cs))
    /\ Forall2 (fun c e =>
                  exists pid,
                    dict_get (path c) (unique_paths (collect cs)) = Some pid
                    /\ e = Element (s2l "entry")
                             [(s2l "producer", pid);
                              (s2l "in", format_3f (start c));
                              (s2l "out", format_3f (float_add (start c) (length c)))]
                             None [])
               cs entries.
Proof.
  destruct (collect_document cs) as [root [_ [Hroot _]]].
  unfold build_document in *. rewrite (collect_cuts cs) in *.
  destruct (mapM (entry_element (unique_paths (collect cs))) cs) as [es|] eqn:Hes;
    [|discriminate].
  exists es. split; [|split].
  - simpl. rewrite !fold_append, map_id. simpl. rewrite <- app_assoc. simpl.
    do 3 f_equal. apply map_ext. intros [p pid]. reflexivity.
  - apply registry_size.
  - apply mapM_forall2 in Hes. revert Hes. apply Forall2_impl.
    intros c e. unfold entry_element.
    destruct (dict_get (path c) (unique_paths (collect cs))) as [pid|]; [|discriminate].
    intros H. injection H as <-. exists pid. split; reflexivity.
Qed.

(** A run on a file that is read to its end. *)
Lemma create_readable (pretty_xml : element -> option str) (fs : filesystem)
      (edl_path output_path : str) (lines : list str) :
  read_file fs edl_path = (lines, None) ->
  let cs := accepted lines in
  let out := (s2l "Reading EDL: " ++ edl_path)
             :: flat_map (fun line => snd (parse_edl_line line)) lines in
  create_kdenlive_project pretty_xml fs edl_path output_path
  = match cs with
    | [] => {| stdout := out ++ [s2l "Error: No valid cuts found in EDL."];
               written := None; ending := Returned |}
    | _ :: _ =>
        let out := out ++ [s2l "Found "
                             ++ str_nat (List.length (nodup str_eq_dec (map path cs)))
                             ++ s2l " unique source files.";
                           s2l "Processing " ++ str_nat (List.length cs)
                             ++ s2l " cuts..."] in
        match project_xml pretty_xml cs with
        | None => {| stdout := out; written := None; ending := Uncaught ExpatError |}
        | Some xml_str =>
            match write_file fs output_path xml_str with
            | Written =>
                {| stdout := out ++ [s2l "Success! Project saved to: " ++ output_path];
                   written := Some (output_path, xml_str); ending := Returned |}
            | Failed e message remains =>
                {| stdout := out ++ (if is_IOError e
                                     then [s2l "Error writing output file: " ++ message]
                                     else []);
                   written := option_map (pair output_path) remains;
                   ending := if is_IOError e then Returned else Uncaught e |}
            end
        end
    end.
Proof.
  intros Hread cs out. unfold create_kdenlive_project, project_xml.
  rewrite Hread. cbv iota beta. rewrite scan_collect. fold cs.
  rewrite (collect_cuts cs), (registry_size cs).
  destruct (collect_document cs) as [root [_ [Hroot _]]]. rewrite Hroot.
  destruct cs as [|c cs']; [reflexivity|].
  simpl app. rewrite <- !app_assoc. simpl app.
  destruct (pretty_xml root) as [xml_str|]; [|reflexivity].
  destruct (write_file fs output_path xml_str) as [|e message remains]; [reflexivity|].
  cbv zeta. destruct (is_IOError e); [reflexivity|].
  now rewrite app_nil_r.
Qed.

(** A run on a file whose reading ends with an exception. *)
Lemma create_unreadable (pretty_xml : element -> option str) (fs : filesystem)
      (edl_path output_path : str) (lines : list str) (e : exn) :
  read_file fs edl_path = (lines, Some e) ->
  let out := (s2l "Reading EDL: " ++ edl_path)
             :: flat_map (fun line => snd (parse_edl_line line)) lines in
  create_kdenlive_project pretty_xml fs edl_path output_path
  = if is_FileNotFoundError e
    then {| stdout := out ++ [s2l "Error: EDL file not found."];
            written := None; ending := Returned |}
    else {| stdout := out; written := None; ending := Uncaught e |}.
Proof.
  intros Hread out. unfold create_kdenlive_project.
  rewrite Hread. cbv iota beta. rewrite scan_collect. reflexivity.
Qed.

(** X8. A run opens the output file in one case only: the input file is
    read to its end, at least one of its lines is accepted, and the
    serializer prints the document of the accepted cuts. The file opened
    is the output path. It holds the text of the document when the write
    succeeds; when the write raises after the file was opened, it holds
    what the failed write left in it. *)
Theorem run_writes_iff (pretty_xml : element -> option str) (fs : filesystem)
      (edl_path output_path p x : str) :
  written (create_kdenlive_project pretty_xml fs edl_path output_path) = Some (p, x)
  <-> p = output_path
      /\ exists lines root xml_str,
           read_file fs edl_path = (lines, None)
           /\ accepted lines <> []
           /\ build_document (collect (accepted lines)) = Ok root
           /\ pretty_xml root = Some xml_str
           /\ ((write_file fs output_path xml_str = Written /\ x = xml_str)
               \/ exists e message,
                    write_file fs output_path xml_str = Failed e message (Some x)).
Proof.
  destruct (read_file fs edl_path) as [lines [e|]] eqn:Hread.
  - rewrite (create_unreadable pretty_xml fs edl_path output_path lines e Hread).
    cbv zeta. split.
    + destruct (is_FileNotFoundError e); discriminate.
    + intros [_ [l [r [y [Hl _]]]]]. discriminate.
  - rewrite (create_readable pretty_xml fs edl_path output_path lines Hread). cbv zeta.
    unfold project_xml.
    destruct (collect_document (accepted lines)) as [root [_ [Hroot _]]].
    destruct (accepted lines) as [|c cs] eqn:Ecs.
    + simpl. split; [discriminate|]. intros [_ [l [r [y [Hl [Hne _]]]]]].
      injection Hl as <-. congruence.
    + rewrite Hroot.
      assert (Hne : c :: cs <> []) by discriminate.
      destruct (pretty_xml root) as [y|] eqn:Ey.
      * destruct (write_file fs output_path y) as [|e message remains] eqn:Ew.
        -- simpl. split.
           ++ intros H. injection H as <- <-. split; [reflexivity|].
              exists lines, root, y. rewrite Ecs. auto 10.
           ++ intros [-> [l [r [z [Hl [_ [Hr [Hz Hw]]]]]]]].
              injection Hl as <-. rewrite Ecs, Hroot in Hr. injection Hr as <-.
              rewrite Ey in Hz. injection Hz as <-. rewrite Ew in Hw.
              destruct Hw as [[_ ->]|[e [message Hw]]]; [reflexivity|discriminate].
        -- simpl. split.
           ++ destruct remains as [t|]; [|discriminate]. simpl.
              intros H. injection H as <- <-. split; [reflexivity|].
              exists lines, root, y. rewrite Ecs. eauto 10.
           ++ intros [-> [l [r [z [Hl [_ [Hr [Hz Hw]]]]]]]].
              injection Hl as <-. rewrite Ecs, Hroot in Hr. injection Hr as <-.
              rewrite Ey in Hz. injection Hz as <-. rewrite Ew in Hw.
              destruct Hw as [[Hw _]|[e' [message' Hw]]]; [discriminate|].
              injection Hw as _ _ ->. reflexivity.
      * simpl. split; [discriminate|]. intros [_ [l [r [z [Hl [_ [Hr [Hz _]]]]]]]].
        injection Hl as <-. rewrite Ecs, Hroot in Hr. injection Hr as <-. congruence.
Qed.



(** X11. No line gives both a cut and a warning, and none gives two of
    either: the cuts and the warnings of a file are together at most as
    many as its lines. *)
Theorem cuts_and_warnings_bounded (lines : list str) :
  (List.length (accepted lines)
   + List.length (flat_map (fun line => snd (parse_edl_line line)) lines)
   <= List.length lines)%nat.
Proof.
  unfold accepted. induction lines as [|l lines IH]; simpl; [lia|].
  rewrite !length_app.
  destruct (parse_cases l) as [[c ->]|[->| ->]]; simpl; lia.
Qed.

(** * The fixed format, numerically *)

(** X12. A finite value [m * 2^e] is printed as its sign, the whole part of
    a number [n] of thousandths and the three digits of the rest, where
    [n] is the whole number nearest to the value times 1000: the two
    differ by at most one half, and by one half only when [n] is even. *)
Theorem format_3f_nearest (neg : bool) (m : positive) (e : Z) :
  let n := thousandths m e in
  format_3f (S754_finite neg m e)
  = sign_str neg ++ str_Z (n / 1000)
      ++ [dot; digit_char (n / 100 mod 10); digit_char (n / 10 mod 10);
          digit_char (n mod 10)]
  /\ (0 <= n)%Z
  /\ ((0 <= e)%Z -> n = (Zpos m * 2 ^ e * 1000)%Z)
  /\ ((e < 0)%Z ->
      (Z.abs (2 * (Zpos m * 1000 - n * 2 ^ (- e))) <= 2 ^ (- e))%Z
      /\ (Z.abs (2 * (Zpos m * 1000 - n * 2 ^ (- e))) = 2 ^ (- e) -> Z.even n = true)%Z).
Proof.
  cbv zeta. split; [reflexivity|]. unfold thousandths.
  destruct (Z.leb_spec 0 e) as [He|He].
  - split; [|split; [reflexivity|lia]].
    assert (0 < 2 ^ e)%Z by (apply Z.pow_pos_nonneg; lia). lia.
  - assert (Hd : (0 < 2 ^ (- e))%Z) by (apply Z.pow_pos_nonneg; lia).
    pose proof (round_half_even_nearest (Zpos m * 1000) (2 ^ (- e)) Hd) as Hn.
    cbv zeta in Hn. split; [|split; [lia|intros _; exact Hn]].
    destruct Hn as [Hn _].
    destruct (Z.le_gt_cases 0 (round_half_even (Z.pos m * 1000) (2 ^ (- e))))
      as [Hq|Hq]; [assumption|exfalso].
    assert (round_half_even (Z.pos m * 1000) (2 ^ (- e)) * 2 ^ (- e) <= - 2 ^ (- e))%Z
      by nia.
    lia.
Qed.

(** * The command line *)

Lemma find_sep_none_not_in (sep : char) (s : str) :
  find_sep sep s = None -> ~ In sep s.
Proof.
  intros H. apply find_sep_none in H. now apply (count_occ_not_In N.eq_dec).
Qed.

(** [rfind] gives the place of the last occurrence. *)
Lemma rfind_spec (c : char) (p : str) :
  (rfind c p = (-1)%Z /\ ~ In c p)
  \/ (exists a b, p = a ++ c :: b /\ ~ In c b /\ rfind c p = Z.of_nat (List.length a)).
Proof.
  unfold rfind. destruct (find_sep c (rev p)) as [[b a]|] eqn:E.
  - right. apply find_sep_some in E. destruct E as [E Hnot].
    exists (rev a), (rev b). repeat split.
    + rewrite <- (rev_involutive p), E, rev_app_distr. simpl.
      now rewrite <- app_assoc.
    + now rewrite <- in_rev.
    + now rewrite length_rev.
  - left. split; [reflexivity|]. apply find_sep_none_not_in in E. now rewrite in_rev.
Qed.

Lemma rfind_app (c : char) (a b : str) :
  ~ In c b -> rfind c (a ++ c :: b) = Z.of_nat (List.length a).
Proof.
  intros Hb. unfold rfind. rewrite rev_app_distr. simpl. rewrite <- app_assoc. simpl.
  rewrite find_sep_app by (now rewrite <- in_rev). now rewrite length_rev.
Qed.

Lemma rfind_lt (c : char) (p : str) (n : nat) :
  (rfind c p < Z.of_nat n)%Z <-> ~ In c (skipn n p).
Proof.
  destruct (rfind_spec c p) as [[-> Hnot]|[a [b [-> [Hb ->]]]]].
  - split; [|lia]. intros _ H. apply Hnot.
    rewrite <- (firstn_skipn n p). apply in_or_app. now right.
  - destruct (Nat.le_gt_cases n (List.length a)) as [Hle|Hgt].
    + split; [lia|]. intros H. exfalso. apply H.
      rewrite skipn_app. apply in_or_app. right.
      replace (n - List.length a)%nat with 0%nat by lia. now left.
    + split; [|lia]. intros _ H. apply Hb.
      rewrite skipn_app, skipn_all2 in H by lia. simpl in H.
      destruct (n - List.length a)%nat as [|k] eqn:Ek; [lia|]. simpl in H.
      rewrite <- (firstn_skipn k b). apply in_or_app. now right.
Qed.

Lemma rfind_ge (c : char) (p : str) : (-1 <= rfind c p)%Z.
Proof.
  destruct (rfind_spec c p) as [[-> _]|[a [b [_ [_ ->]]]]]; lia.
Qed.

Lemma in_slice (l1 l2 : str) (x : char) (i j : Z) :
  (0 <= i <= Z.of_nat (List.length l1))%Z -> (Z.of_nat (List.length l1) < j)%Z ->
  In x (slice (l1 ++ x :: l2) i j).
Proof.
  intros Hi Hj. unfold slice.
  rewrite skipn_app. replace (Z.to_nat i - List.length l1)%nat with 0%nat by lia.
  simpl skipn. rewrite firstn_app. apply in_or_app. right.
  rewrite length_skipn.
  destruct (Z.to_nat (j - i) - (List.length l1 - Z.to_nat i))%nat as [|k] eqn:Ek; [lia|].
  now left.
Qed.

Lemma last_sep_lt (sep : char) (altsep : option char) (p : str) (n : nat) :
  (last_sep sep altsep p < Z.of_nat n)%Z
  <-> ~ In sep (skipn n p) /\ (forall a, altsep = Some a -> ~ In a (skipn n p)).
Proof.
  unfold last_sep. destruct altsep as [a|].
  - rewrite Z.max_lub_lt_iff, !rfind_lt. split.
    + intros [H1 H2]. split; [assumption|]. intros a' E. now injection E as <-.
    + intros [H1 H2]. split; [assumption|]. now apply H2.
  - rewrite rfind_lt. split; [|tauto]. intros H. split; [assumption|]. discriminate.
Qed.

(** What [_splitext] returns: the two parts make up the path, and the
    extension is empty or is the last dot with what follows it, which holds
    no separator. *)
Lemma splitext_generic_parts (sep : char) (altsep : option char) (extsep : char) (p : str) :
  let (base, ext) := splitext_generic sep altsep extsep p in
  base ++ ext = p
  /\ (ext = []
      \/ exists e, ext = extsep :: e /\ ~ In extsep e /\ ~ In sep e
                   /\ (forall a, altsep = Some a -> ~ In a e)).
Proof.
  unfold splitext_generic. fold (last_sep sep altsep p).
  destruct (Z.ltb_spec (last_sep sep altsep p) (rfind extsep p)) as [Hlt|Hge];
    [|split; [apply app_nil_r|now left]].
  destruct (forallb _ _); [split; [apply app_nil_r|now left]|].
  split; [apply firstn_skipn|right].
  destruct (rfind_spec extsep p) as [[E _]|[a [b [-> [Hb E]]]]].
  - assert (-1 <= last_sep sep altsep p)%Z;
      [|lia]. unfold last_sep. destruct altsep; pose proof (rfind_ge sep p); lia.
  - rewrite E in *. rewrite Nat2Z.id.
    apply last_sep_lt in Hlt. rewrite skipn_app, skipn_all, Nat.sub_diag in Hlt.
    simpl in Hlt. destruct Hlt as [Hs Ha].
    exists b. rewrite skipn_app, skipn_all, Nat.sub_diag. simpl.
    repeat split; try assumption.
    + intros H. apply Hs. now right.
    + intros a' Ea H. apply (Ha a' Ea). now right.
Qed.

(** A path that ends with a dot and an extension, after a file name that
    holds a character other than a dot, is split at that dot. *)
Lemma splitext_generic_extension (sep : char) (altsep : option char) (extsep : char)
      (pre post e : str) (x : char) :
  x <> extsep -> ~ In extsep e ->
  ~ In sep (x :: post ++ extsep :: e) ->
  (forall a, altsep = Some a -> ~ In a (x :: post ++ extsep :: e)) ->
  splitext_generic sep altsep extsep ((pre ++ x :: post) ++ extsep :: e)
  = (pre ++ x :: post, extsep :: e).
Proof.
  intros Hx He Hs Ha. unfold splitext_generic.
  fold (last_sep sep altsep ((pre ++ x :: post) ++ extsep :: e)).
  rewrite (rfind_app extsep _ e He).
  assert (Hlast : (last_sep sep altsep ((pre ++ x :: post) ++ extsep :: e)
                   < Z.of_nat (List.length pre))%Z).
  { apply last_sep_lt. rewrite <- !app_assoc, skipn_app, skipn_all, Nat.sub_diag.
    simpl. split; assumption. }
  assert (Hlow : (-1 <= last_sep sep altsep ((pre ++ x :: post) ++ extsep :: e))%Z).
  { unfold last_sep. destruct altsep; pose proof (rfind_ge sep ((pre ++ x :: post) ++ extsep :: e)); lia. }
  set (ls := last_sep sep altsep ((pre ++ x :: post) ++ extsep :: e)) in *.
  rewrite length_app. simpl List.length.
  destruct (Z.ltb_spec ls (Z.of_nat (List.length pre + S (List.length post))))
    as [_|Hge]; [|lia].
  destruct (forallb _ _) eqn:Hall.
  - exfalso. rewrite forallb_forall in Hall.
    assert (Hin : In x (slice ((pre ++ x :: post) ++ extsep :: e) (ls + 1)
                          (Z.of_nat (List.length pre + S (List.length post))))).
    { rewrite <- app_assoc. simpl. apply in_slice; lia. }
    apply Hall in Hin. apply N.eqb_eq in Hin. contradiction.
  - rewrite Nat2Z.id.
    replace (List.length pre + S (List.length post))%nat
      with (List.length (pre ++ x :: post)) by (rewrite length_app; reflexivity).
    rewrite firstn_app, firstn_all, Nat.sub_diag, skipn_app, skipn_all, Nat.sub_diag.
    simpl. now rewrite app_nil_r.
Qed.

Lemma is_sep_seps (os : platform) (l : str) :
  (forall c, In c l -> is_sep os c = false) ->
  match os with
  | Posix => ~ In slash l
  | Windows => ~ In backslash l /\ ~ In slash l
  end.
Proof.
  intros H. destruct os; [|split]; intros Hin; apply H in Hin; discriminate.
Qed.

Lemma os_path_splitext_extension (os : platform) (pre post e : str) (x : char) :
  x <> dot -> ~ In dot e ->
  (forall c, In c (x :: post ++ dot :: e) -> is_sep os c = false) ->
  os_path_splitext os ((pre ++ x :: post) ++ dot :: e) = (pre ++ x :: post, dot :: e).
Proof.
  intros Hx He Hs. apply is_sep_seps in Hs.
  destruct os; unfold os_path_splitext; apply splitext_generic_extension; try assumption.
  - discriminate.
  - tauto.
  - intros a E. injection E as <-. tauto.
Qed.

(** X13. Called with the input path alone, the script builds to the input
    path with its extension replaced by .kdenlive, or with .kdenlive added
    when it has none: the extension, if any, is the last dot of the path
    and what follows it, which holds no other dot and no path separator. *)
Theorem main_default_output (os : platform) (pretty_xml : element -> option str)
      (fs : filesystem) (prog edl_file : str) :
  exists base ext,
    edl_file = base ++ ext
    /\ main os pretty_xml fs [prog; edl_file]
       = Built (create_kdenlive_project pretty_xml fs edl_file (base ++ s2l ".kdenlive"))
    /\ (ext = []
        \/ exists e, ext = dot :: e /\ ~ In dot e
                     /\ forall c, In c e -> is_sep os c = false).
Proof.
  unfold main. simpl.
  assert (H : let (base, ext) := os_path_splitext os edl_file in
              base ++ ext = edl_file
              /\ (ext = []
                  \/ exists e, ext = dot :: e /\ ~ In dot e
                               /\ forall c, In c e -> is_sep os c = false)).
  { destruct os; unfold os_path_splitext.
    - pose proof (splitext_generic_parts slash None dot edl_file) as H.
      destruct (splitext_generic slash None dot edl_file) as [base ext].
      destruct H as [H1 [H2|[e [-> [Hd [Hs _]]]]]]; split; auto.
      right. exists e. repeat split; try assumption.
      intros c Hc. simpl. apply N.eqb_neq. intros ->. contradiction.
    - pose proof (splitext_generic_parts backslash (Some slash) dot edl_file) as H.
      destruct (splitext_generic backslash (Some slash) dot edl_file) as [base ext].
      destruct H as [H1 [H2|[e [-> [Hd [Hs Ha]]]]]]; split; auto.
      right. exists e. repeat split; try assumption.
      intros c Hc. simpl. apply orb_false_intro; apply N.eqb_neq; intros ->.
      + contradiction.
      + now apply (Ha slash eq_refl). }
  destruct (os_path_splitext os edl_file) as [base ext]. destruct H as [H1 H2].
  exists base, ext. simpl. repeat split; auto.
Qed.

(** X14. For an input path that ends with a dot and an extension holding no
    dot and no separator, after a file name that holds a character other
    than a dot, the default output path is the input path with that
    extension replaced by .kdenlive. *)
Theorem main_replaces_extension (os : platform) (pretty_xml : element -> option str)
      (fs : filesystem) (prog pre post e : str) (x : char) :
  x <> dot -> ~ In dot e ->
  (forall c, In c (x :: post ++ dot :: e) -> is_sep os c = false) ->
  main os pretty_xml fs [prog; (pre ++ x :: post) ++ dot :: e]
  = Built (create_kdenlive_project pretty_xml fs ((pre ++ x :: post) ++ dot :: e)
             ((pre ++ x :: post) ++ s2l ".kdenlive")).
Proof.
  intros Hx He Hs. unfold main. simpl.
  now rewrite (os_path_splitext_extension os pre post e x Hx He Hs).
Qed.

Lemma main_replaces_extension_witness :
  main Posix (fun _ => None) {| read_file := fun _ => ([], Some FileNotFoundError); write_file := fun _ _ => Written |}
    [s2l "edl2denlive.py"; s2l "/home/u/my.cuts/rough.v2.edl"]
  = Built (create_kdenlive_project (fun _ => None)
             {| read_file := fun _ => ([], Some FileNotFoundError); write_file := fun _ _ => Written |}
             (s2l "/home/u/my.cuts/rough.v2.edl") (s2l "/home/u/my.cuts/rough.v2.kdenlive")).
Proof.
  apply (main_replaces_extension Posix _ _ (s2l "edl2denlive.py")
           (s2l "/home/u/my.cuts/") (s2l "ough.v2") (s2l "edl") 114).
  - discriminate.
  - vm_compute. intuition discriminate.
  - intros c Hc. vm_compute in Hc.
    repeat (destruct Hc as [<-|Hc]; [reflexivity|]). contradiction.
Defined.

(** X15. Called with an input path alone that already ends in .kdenlive
    (after a file name that holds a character other than a dot), the script
    builds to that very path: the file that is read is the one that is
    written. *)
Theorem main_kdenlive_input_is_output (os : platform) (pretty_xml : element -> option str)
      (fs : filesystem) (prog pre post : str) (x : char) :
  x <> dot ->
  (forall c, In c (x :: post) -> is_sep os c = false) ->
  let edl_file := (pre ++ x :: post) ++ s2l ".kdenlive" in
  main os pretty_xml fs [prog; edl_file]
  = Built (create_kdenlive_project pretty_xml fs edl_file edl_file).
Proof.
  intros Hx Hs edl_file. unfold main, edl_file. simpl.
  change (s2l ".kdenlive") with (dot :: s2l "kdenlive").
  rewrite (os_path_splitext_extension os pre post (s2l "kdenlive") x Hx); [reflexivity| |].
  - vm_compute. intuition discriminate.
  - intros c Hc. simpl in Hc. rewrite in_app_iff in Hc.
    destruct Hc as [<-|[Hc|Hc]].
    + apply Hs. now left.
    + apply Hs. now right.
    + vm_compute in Hc. destruct os;
        repeat (destruct Hc as [<-|Hc]; [reflexivity|]); contradiction.
Qed.

Lemma main_kdenlive_input_is_output_witness :
  main Windows (fun _ => None) {| read_file := fun _ => ([], Some FileNotFoundError); write_file := fun _ _ => Written |}
    [s2l "edl2denlive.py"; s2l "cut.kdenlive"]
  = Built (create_kdenlive_project (fun _ => None)
             {| read_file := fun _ => ([], Some FileNotFoundError); write_file := fun _ _ => Written |}
             (s2l "cut.kdenlive") (s2l "cut.kdenlive")).
Proof.
  apply (main_kdenlive_input_is_output Windows _ _ (s2l "edl2denlive.py") [] (s2l "ut") 99).
  - discriminate.
  - intros c Hc. vm_compute in Hc.
    repeat (destruct Hc as [<-|Hc]; [reflexivity|]). contradiction.
Defined.

(** Two lines of one clip, and a serializer that prints the tags of the
    children of the root. On a disk that takes the text, the output file
    holds it; on a disk that is full, the output file has been created and
    is left empty. *)
Lemma run_writes_iff_witness :
  let show := fun root : element => Some (List.concat (map tag (children root))) in
  let lines := [s2l "a.mp4, 0, 1"; s2l "a.mp4, 5, 1"] in
  let fs := {| read_file := fun _ => (lines, None); write_file := fun _ _ => Written |} in
  let full := {| read_file := fun _ => (lines, None);
                 write_file := fun _ _ =>
                   Failed OSError (s2l "[Errno 28] No space left on device") (Some []) |} in
  written (create_kdenlive_project show fs (s2l "in.edl") (s2l "out.kdenlive"))
  = Some (s2l "out.kdenlive", s2l "producerplaylisttractor")
  /\ written (create_kdenlive_project show full (s2l "in.edl") (s2l "out.kdenlive"))
     = Some (s2l "out.kdenlive", []).
Proof.
  intros show lines fs full.
  destruct (build_document (collect (accepted lines))) as [root|] eqn:E;
    [|vm_compute in E; discriminate].
  assert (Hx : show root = Some (s2l "producerplaylisttractor")).
  { vm_compute in E. injection E as <-. vm_compute. reflexivity. }
  split; apply run_writes_iff; (split; [reflexivity|]);
    exists lines, root, (s2l "producerplaylisttractor");
    (split; [reflexivity|]); (split; [vm_compute; discriminate|]);
    (split; [exact E|]); (split; [exact Hx|]).
  - left. split; reflexivity.
  - right. eexists. eexists. reflexivity.
Defined.


